(** * phoenix_lib: LLM result normalisation and markdown fence stripping

    A shallow embedding of [phoenix_lib.utils.text.strip_markdown_code_fences]
    and [phoenix_lib.llm.utils.normalize_result], with the properties the
    specification states about them.

    A Python [str] is a sequence of Unicode code points; it is modelled as a
    list of code points ([N]).  The two regular expressions of the fence
    stripper are run by a small backtracking matcher that follows the
    operations [re] compiles them to (literal, character class, greedy
    repeat, group marks, anchors).

    The values handed to [normalize_result] are finite trees: [None],
    strings, numbers, booleans, dicts with scalar keys, lists, tuples, and
    objects seen through what the code does with them (attribute reads,
    [model_dump], [repr]), each of which may raise.  Cyclic values are left
    out, as the specification leaves them out, and so is the recursion
    limit of the interpreter; the limit [str] puts on the digits of an int
    is modelled.

    Further sections embed the filename sanitiser, [short_id], the unit of
    work and the tracing wrapper of the LLM client, their collaborators
    (Unicode normalisation, the random source, sessions, Langfuse) being
    parameters. *)

From Stdlib Require Import String Ascii DecimalString.
From Stdlib Require Import List Bool Arith NArith ZArith Lia.
Import ListNotations.

Set Warnings "-register-all".

(** ** Python strings *)

Module PyStr.

Definition char := N.
Definition pystr := list char.

(** A literal of the source, written as a Rocq string. *)
Definition lit (s : string) : pystr :=
  map N_of_ascii (list_ascii_of_string s).

Definition nl : char := 10%N.        (* "\n" *)
Definition backtick : char := 96%N.  (* "`" *)

Definition in_range (lo hi c : char) : bool := (lo <=? c)%N && (c <=? hi)%N.

(** [str.isspace] on one code point, as CPython's [_PyUnicode_IsWhitespace]. *)
Definition isspace (c : char) : bool :=
  existsb (fun r => in_range (fst r) (snd r) c)
    [ (9, 13); (28, 32); (133, 133); (160, 160); (5760, 5760);
      (8192, 8202); (8232, 8233); (8239, 8239); (8287, 8287);
      (12288, 12288) ]%N.

Fixpoint lstrip (s : pystr) : pystr :=
  match s with
  | c :: s' => if isspace c then lstrip s' else s
  | [] => []
  end.

Definition rstrip (s : pystr) : pystr := rev (lstrip (rev s)).

(** [s.strip()] with no argument. *)
Definition strip (s : pystr) : pystr := rstrip (lstrip s).

(** [s.startswith(prefix)] *)
Fixpoint startswith (s prefix : pystr) {struct prefix} : bool :=
  match prefix with
  | [] => true
  | p :: prefix' =>
      match s with
      | c :: s' => (c =? p)%N && startswith s' prefix'
      | [] => false
      end
  end.

(** [s.endswith(suffix)] *)
Definition endswith (s suffix : pystr) : bool :=
  startswith (rev s) (rev suffix).

(** [sub in s] *)
Fixpoint contains (s sub : pystr) : bool :=
  startswith s sub ||
  match s with
  | [] => false
  | _ :: s' => contains s' sub
  end.

(** [sep.join(parts)] *)
Fixpoint join (sep : pystr) (parts : list pystr) : pystr :=
  match parts with
  | [] => []
  | [p] => p
  | p :: rest => p ++ sep ++ join sep rest
  end.

(** Truthiness of a string: [if p]. *)
Definition truthy (s : pystr) : bool :=
  match s with [] => false | _ :: _ => true end.

(** ["\n".join(p for p in parts if p)] *)
Definition join_nonempty (parts : list pystr) : pystr :=
  join [nl] (filter truthy parts).

End PyStr.
Import PyStr.

(** ** The regular expressions of the fence stripper *)

Module Re.

(** One-character matchers. *)
Inductive atom :=
| Lit (c : char)                       (* a literal character *)
| In_ (ranges : list (char * char))    (* a class [...] of ranges *)
| Any.                                 (* "." under re.DOTALL *)

Definition accepts (a : atom) (c : char) : bool :=
  match a with
  | Lit d => (c =? d)%N
  | In_ ranges => existsb (fun r => in_range (fst r) (snd r) c) ranges
  | Any => true
  end.

(** The operations a pattern is parsed into.  Only group 1 is marked. *)
Inductive op :=
| At_beginning                                       (* ^ *)
| At_end                                             (* $ *)
| One (a : atom)
| Max_repeat (lo : nat) (hi : option nat) (a : atom) (* greedy a{lo,hi} *)
| Mark_open                                          (* "(" of group 1 *)
| Mark_close.                                        (* ")" of group 1 *)

Definition below (hi : option nat) (n : nat) : bool :=
  match hi with Some h => n <? h | None => true end.

Section Repeat.
Variable R : Type.
Variables (a : atom) (lo : nat) (hi : option nat).
(** What follows the repeat, as a function of position and rest. *)
Variable k : nat -> pystr -> option R.

(** Greedy repetition of a one-character matcher: take as many characters
    as possible, and give them back one at a time while what follows
    fails.  [n] counts the characters taken so far. *)
Fixpoint rep (n pos : nat) (s : pystr) {struct s} : option R :=
  let stop := if lo <=? n then k pos s else None in
  match s with
  | c :: s' =>
      if accepts a c && below hi n
      then match rep (S n) (S pos) s' with
           | Some r => Some r
           | None => stop
           end
      else stop
  | [] => stop
  end.
End Repeat.
Arguments rep {R} a lo hi k n pos s.

(** Backtracking run of a pattern from position [pos], where [s] is the rest
    of the subject and [g] the span of group 1 recorded so far. *)
Fixpoint run (p : list op) (g : nat * nat) (pos : nat) (s : pystr)
  {struct p} : option (nat * nat) :=
  match p with
  | [] => Some g
  | At_beginning :: p' => if pos =? 0 then run p' g pos s else None
  | At_end :: p' =>
      (* without re.MULTILINE: at the end, or before a final newline *)
      match s with
      | [] => run p' g pos s
      | [c] => if (c =? nl)%N then run p' g pos s else None
      | _ => None
      end
  | One a :: p' =>
      match s with
      | c :: s' => if accepts a c then run p' g (S pos) s' else None
      | [] => None
      end
  | Max_repeat lo hi a :: p' => rep a lo hi (run p' g) 0 pos s
  | Mark_open :: p' => run p' (pos, snd g) pos s
  | Mark_close :: p' => run p' (fst g, pos) pos s
  end.

(** [s[i:j]] *)
Definition slice (s : pystr) (i j : nat) : pystr := firstn (j - i) (skipn i s).

(** [m = re.match(p, s, re.DOTALL)] followed by [m.group(1)]; [None] when
    there is no match. *)
Definition re_match_group1 (p : list op) (s : pystr) : option pystr :=
  match run p (0, 0) 0 s with
  | Some (i, j) => Some (slice s i j)
  | None => None
  end.

Definition fence_ops : list op := [One (Lit backtick); One (Lit backtick); One (Lit backtick)].

(** [[a-zA-Z0-9_-]] *)
Definition lang_class : atom :=
  In_ [ (97, 122); (65, 90); (48, 57); (95, 95); (45, 45) ]%N.

(** r"^```[a-zA-Z0-9_-]*\n(.+)\n?```$" *)
Definition pattern : list op :=
  [At_beginning] ++ fence_ops ++
  [Max_repeat 0 None lang_class; One (Lit nl);
   Mark_open; Max_repeat 1 None Any; Mark_close;
   Max_repeat 0 (Some 1) (Lit nl)] ++ fence_ops ++ [At_end].

(** r"^```\n(.+)\n?```$" *)
Definition pattern_no_lang : list op :=
  [At_beginning] ++ fence_ops ++
  [One (Lit nl);
   Mark_open; Max_repeat 1 None Any; Mark_close;
   Max_repeat 0 (Some 1) (Lit nl)] ++ fence_ops ++ [At_end].

End Re.

(** ** utils/text.py *)

Definition fence : pystr := [backtick; backtick; backtick].

(** [strip_markdown_code_fences(text)] on a string.  The guard
    [not isinstance(text, str)] of the source is the type of [text] here;
    [not text] is the empty string. *)
Definition strip_markdown_code_fences (text : pystr) : pystr :=
  if negb (truthy text) then text else
  let stripped := strip text in
  if negb (startswith stripped fence) then text else
  match Re.re_match_group1 Re.pattern stripped with
  | Some group1 => strip group1
  | None =>
      match Re.re_match_group1 Re.pattern_no_lang stripped with
      | Some group1 => strip group1
      | None => text
      end
  end.


(** ** Python values reaching [normalize_result] *)

(** The exceptions the code can meet; all are subclasses of [Exception]. *)
Inductive exn := AttributeError | TypeError | ValueError | RuntimeError.

(** The outcome of an expression: a value, or a raised exception. *)
Inductive res (A : Type) :=
| Ok (a : A)
| Raise (e : exn).
Arguments Ok {A} a.
Arguments Raise {A} e.

Definition bind {A B} (r : res A) (f : A -> res B) : res B :=
  match r with Ok a => f a | Raise e => Raise e end.

Notation "x <- r ;; k" := (bind r (fun x => k))
  (at level 61, r at next level, right associativity).

(** [try: r except Exception: handler] *)
Definition try_except {A} (r : res A) (handler : res A) : res A :=
  match r with Ok a => Ok a | Raise _ => handler end.

(** Statements of a loop body run in order; the first exception ends it. *)
Fixpoint for_each {A B} (f : A -> res B) (l : list A) : res (list B) :=
  match l with
  | [] => Ok []
  | x :: l' => y <- f x ;; ys <- for_each f l' ;; Ok (y :: ys)
  end.

(** Keys of a dict: the scalar hashable values. *)
Inductive pykey :=
| KStr (s : pystr)
| KInt (z : Z)
| KBool (b : bool)
| KFloat (text : pystr)
| KNone.

(** A value.  A float is carried with the text [str] gives for it, the only
    thing the code asks of a float.  An object is what the code can observe
    of it: the outcome of reading each attribute it defines (reading any
    other name raises [AttributeError]), the outcomes of its [model_dump]
    method when it has one, called with and without [warnings=False], and
    the outcome of [repr]. *)
Inductive pyval :=
| VNone
| VStr (s : pystr)
| VInt (z : Z)
| VFloat (text : pystr)
| VBool (b : bool)
| VDict (items : list (pykey * pyval))
| VList (xs : list pyval)
| VTuple (xs : list pyval)
| VObj (attrs : list (string * res pyval))
       (model_dump : option (res pyval * res pyval))
       (repr : res pystr).

Fixpoint pylist_eqb (s1 s2 : pystr) : bool :=
  match s1, s2 with
  | [], [] => true
  | c1 :: s1', c2 :: s2' => (c1 =? c2)%N && pylist_eqb s1' s2'
  | _, _ => false
  end.

(** The decimal text of an int. *)
Definition decimal (z : Z) : pystr := lit (NilZero.string_of_int (Z.to_int z)).

(** The number of decimal digits of an int, its sign left out. *)
Definition digits (z : Z) : Z := Z.of_nat (length (decimal (Z.abs z))).

(** [sys.int_info.default_max_str_digits] *)
Definition int_max_str_digits : Z := 4300.

(** [str(z)] for an int: CPython refuses to convert an int of more digits
    than its limit and raises [ValueError]. *)
Definition str_int (z : Z) : res pystr :=
  if (int_max_str_digits <? digits z)%Z then Raise ValueError
  else Ok (decimal z).

Definition str_bool (b : bool) : pystr := if b then lit "True" else lit "False".

(** [str(k)] for a dict key. *)
Definition str_key (k : pykey) : res pystr :=
  match k with
  | KStr s => Ok s
  | KInt z => str_int z
  | KBool b => Ok (str_bool b)
  | KFloat text => Ok text
  | KNone => Ok (lit "None")
  end.

(** Whether the key [k] is the string [name]. *)
Definition key_is (name : pystr) (k : pykey) : bool :=
  match k with KStr s => pylist_eqb s name | _ => false end.

(** [d[name]] for a string [name]; [None] when [name not in d]. *)
Fixpoint dict_get {V} (items : list (pykey * V)) (name : pystr) : option V :=
  match items with
  | [] => None
  | (k, v) :: items' => if key_is name k then Some v else dict_get items' name
  end.

(** Reading attribute [name] of the attribute table of an object. *)
Fixpoint attr_get {V} (attrs : list (string * res V)) (name : string) : res V :=
  match attrs with
  | [] => Raise AttributeError
  | (n, a) :: attrs' => if String.eqb n name then a else attr_get attrs' name
  end.

(** [value.name]; the builtin types define none of the names the code reads. *)
Definition getattr (value : pyval) (name : string) : res pyval :=
  match value with
  | VObj attrs _ _ => attr_get attrs name
  | _ => Raise AttributeError
  end.

(** [hasattr] reads the attribute: [AttributeError] gives [False], any other
    exception propagates. *)
Definition hasattr_of {V} (read : res V) : res bool :=
  match read with
  | Ok _ => Ok true
  | Raise AttributeError => Ok false
  | Raise e => Raise e
  end.

Definition hasattr (value : pyval) (name : string) : res bool :=
  hasattr_of (getattr value name).

(** Reading attribute [name] and handing what was read to [f]: the outer
    outcome is that of the read, the inner one that of [f]. *)
Definition read_then {V W} (f : V -> W) (attrs : list (string * res V))
  (name : string) : res W :=
  attr_get (map (fun na => (fst na,
                            match snd na with
                            | Ok v => Ok (f v)
                            | Raise e => Raise e
                            end)) attrs) name.

(** ** json.dumps of a dict of strings, [ensure_ascii=False] *)

Definition hex_digit (n : N) : char :=
  if (n <? 10)%N then (48 + n)%N else (87 + n)%N.

(** The replacement [json.encoder.py_encode_basestring] makes for one
    character. *)
Definition json_escape (c : char) : pystr :=
  if (c =? 34)%N then lit "\" ++ [34%N]
  else if (c =? 92)%N then lit "\\"
  else if (c =? 10)%N then lit "\n"
  else if (c =? 13)%N then lit "\r"
  else if (c =? 9)%N then lit "\t"
  else if (c =? 12)%N then lit "\f"
  else if (c =? 8)%N then lit "\b"
  else if (c <? 32)%N then lit "\u00" ++ [hex_digit (c / 16); hex_digit (c mod 16)]
  else [c].

Definition json_string (s : pystr) : pystr :=
  [34%N] ++ flat_map json_escape s ++ [34%N].

(** [d[k] = v] on an insertion-ordered dict of strings. *)
Fixpoint dict_set (d : list (pystr * pystr)) (k v : pystr) : list (pystr * pystr) :=
  match d with
  | [] => [(k, v)]
  | (k', v') :: d' => if pylist_eqb k' k then (k', v) :: d' else (k', v') :: dict_set d' k v
  end.

Definition json_dumps (d : list (pystr * pystr)) : pystr :=
  lit "{" ++
  join (lit ", ") (map (fun kv => json_string (fst kv) ++ lit ": " ++ json_string (snd kv)) d)
  ++ lit "}".

(** ** llm/utils.py *)

Definition is_none (v : pyval) : bool :=
  match v with VNone => true | _ => false end.

(** The inner function [_extract_text] of [normalize_result] (lines 18-58).
    Values are finite trees, so the recursion is structural: the recursive
    calls on the values of a dict and on the attributes of an object are
    taken under [map] and [read_then], and the lookup then picks the one
    the code asks for. *)
Fixpoint _extract_text (value : pyval) : res pystr :=
  match value with
  | VNone => Ok []
  | VStr s => Ok s
  | VInt z => str_int z
  | VFloat text => Ok text
  | VBool b => Ok (str_bool b)
  | VDict items =>
      (* lines 27-30 *)
      match dict_get (map (fun kv => (fst kv, _extract_text (snd kv))) items)
                     (lit "content") with
      | Some r => r
      | None =>
          normalized <-
            fold_left (fun acc kv =>
                         d <- acc ;;
                         k <- str_key (fst kv) ;;
                         v <- _extract_text (snd kv) ;;
                         Ok (dict_set d k v))
                      items (Ok []) ;;
          Ok (json_dumps normalized)
      end
  | VList xs | VTuple xs =>
      (* lines 32-33 *)
      parts <- for_each _extract_text xs ;;
      Ok (join_nonempty parts)
  | VObj attrs model_dump repr =>
      (* lines 34-43 *)
      let content := read_then _extract_text attrs "content" in
      let text := read_then _extract_text attrs "text" in
      has_content <- hasattr_of content ;;
      if (has_content : bool) then
        try_except (r <- content ;; r) (Ok [])
      else
      has_text <- hasattr_of text ;;
      if (has_text : bool) then
        try_except (r <- text ;; r) (Ok [])
      else
      (* lines 55-58 *)
      let fallback := try_except repr (Ok []) in
      (* lines 44-54: the retry under [except TypeError] is not itself
         inside a [try] *)
      match model_dump with
      | Some (with_warnings, without_warnings) =>
          let recurse (d : res pyval) : res (option (res pystr)) :=
            match d with
            | Ok v => Ok (if is_none v then None else Some (_extract_text v))
            | Raise e => Raise e
            end in
          dumped <-
            match recurse with_warnings with
            | Ok d => Ok d
            | Raise TypeError => recurse without_warnings
            | Raise _ => Ok None
            end ;;
          match dumped with
          | Some r => r
          | None => fallback
          end
      | None => fallback
      end
  end.

Definition is_sequence (v : pyval) : option (list pyval) :=
  match v with
  | VList xs | VTuple xs => Some xs
  | _ => None
  end.

(** The value a dict key iterates as. *)
Definition key_value (k : pykey) : pyval :=
  match k with
  | KStr s => VStr s
  | KInt z => VInt z
  | KBool b => VBool b
  | KFloat text => VFloat text
  | KNone => VNone
  end.

(** [for x in v]: the elements, or [TypeError] when [v] is not iterable
    (objects are taken not to be). *)
Definition iterate (v : pyval) : res (list pyval) :=
  match v with
  | VList xs | VTuple xs => Ok xs
  | VStr s => Ok (map (fun c => VStr [c]) s)
  | VDict items => Ok (map (fun kv => key_value (fst kv)) items)
  | _ => Raise TypeError
  end.

(** Lines 74-79: one choice of an object's [choices]. *)
Definition choice_text (c : pyval) : res pystr :=
  has_message <- hasattr c "message" ;;
  if (has_message : bool) then m <- getattr c "message" ;; _extract_text m
  else
  has_text <- hasattr c "text" ;;
  if (has_text : bool) then t <- getattr c "text" ;; _extract_text t
  else _extract_text c.

(** Lines 89-99: one item of a dict's ["choices"]. *)
Definition item_text (item : pyval) : res pystr :=
  match item with
  | VDict entries =>
      match dict_get entries (lit "message") with
      | Some m => _extract_text m
      | None =>
          match dict_get entries (lit "text") with
          | Some t => _extract_text t
          | None => _extract_text item
          end
      end
  | _ =>
      has_message <- hasattr item "message" ;;
      if (has_message : bool) then m <- getattr item "message" ;; _extract_text m
      else _extract_text item
  end.

(** Lines 112-117 and 119-124: one generation. *)
Definition generation_text (e : pyval) : res pystr :=
  has_text <- hasattr e "text" ;;
  if (has_text : bool) then t <- getattr e "text" ;; _extract_text t
  else
  has_content <- hasattr e "content" ;;
  if (has_content : bool) then c <- getattr e "content" ;; _extract_text c
  else _extract_text e.

(** Lines 109-124: the texts one element of [generations] appends. *)
Definition generation_texts (g : pyval) : res (list pystr) :=
  match is_sequence g with
  | Some es => for_each generation_text es
  | None => t <- generation_text g ;; Ok [t]
  end.

(** Lines 60-129: the value of [output] before the fence stripper runs. *)
Definition extract_output (result : pyval) : res pystr :=
  match result with
  | VNone => Ok []
  | VStr s => Ok s
  | _ =>
    has_content <- hasattr result "content" ;;
    if (has_content : bool) then
      c <- getattr result "content" ;; _extract_text c
    else
    has_choices <- hasattr result "choices" ;;
    if (has_choices : bool) then
      choices <- getattr result "choices" ;;
      try_except
        match is_sequence choices with
        | Some cs => texts <- for_each choice_text cs ;; Ok (join_nonempty texts)
        | None => _extract_text choices
        end
        (_extract_text result)
    else
    match result with
    | VDict items =>
        match match dict_get items (lit "choices") with
              | Some v => is_sequence v
              | None => None
              end with
        | Some cs => texts <- for_each item_text cs ;; Ok (join_nonempty texts)
        | None =>
            match dict_get items (lit "message") with
            | Some m => _extract_text m
            | None => _extract_text result
            end
        end
    | _ =>
        has_generations <- hasattr result "generations" ;;
        if (has_generations : bool) then
          gens <- getattr result "generations" ;;
          try_except
            (gs <- iterate gens ;;
             texts <- for_each generation_texts gs ;;
             Ok (join_nonempty (concat texts)))
            (Ok [])
        else _extract_text result
    end
  end.

(** [normalize_result(result)] *)
Definition normalize_result (result : pyval) : res pystr :=
  output <- extract_output result ;;
  Ok (strip_markdown_code_fences output).

(** ** Notions used in the statements *)

(** A string with no whitespace at either end. *)
Definition trimmed (s : pystr) : Prop := lstrip s = s /\ lstrip (rev s) = rev s.

(** A language tag: characters of [[a-zA-Z0-9_-]]. *)
Definition lang_tag (tag : pystr) : bool :=
  forallb (Re.accepts Re.lang_class) tag.

(** [t] is an opening marker with tag [tag], a line break, the non-empty
    [body], and a closing marker. *)
Definition fenced (t tag body : pystr) : Prop :=
  t = fence ++ tag ++ nl :: body ++ fence /\ lang_tag tag = true /\ body <> [].

(** The part of both patterns after the group's content: ")\n?```$". *)
Definition closing : list Re.op :=
  [Re.Mark_close; Re.Max_repeat 0 (Some 1) (Re.Lit nl)] ++ Re.fence_ops ++ [Re.At_end].

(** "^```[a-zA-Z0-9_-]*\n(.+" followed by [q]. *)
Definition opening (q : list Re.op) : list Re.op :=
  [Re.At_beginning] ++ Re.fence_ops ++
  [Re.Max_repeat 0 None Re.lang_class; Re.One (Re.Lit nl);
   Re.Mark_open; Re.Max_repeat 1 None Re.Any] ++ q.

(** An object with only the listed attributes. *)
Definition plain_object (attrs : list (string * res pyval)) : pyval :=
  VObj attrs None (Ok (lit "<object>")).

Definition is_dict (v : pyval) : bool :=
  match v with VDict _ => true | _ => false end.

(** A field of a choice: a key when the choice is a dict, an attribute
    otherwise; a missing field reads as [AttributeError]. *)
Definition field (c : pyval) (name : string) : res pyval :=
  match c with
  | VDict entries =>
      match dict_get entries (lit name) with
      | Some v => Ok v
      | None => Raise AttributeError
      end
  | _ => getattr c name
  end.

(** The rule as the specification words it: the choice's message field,
    else its text field, else the choice itself. *)
Definition choice_text_spec (c : pyval) : res pystr :=
  has_message <- hasattr_of (field c "message") ;;
  if (has_message : bool) then m <- field c "message" ;; _extract_text m
  else
  has_text <- hasattr_of (field c "text") ;;
  if (has_text : bool) then t <- field c "text" ;; _extract_text t
  else _extract_text c.

(** The choices of a choice-list input: an object with no [content]
    attribute whose [choices] attribute is a list or tuple, or a dict whose
    "choices" key holds a list or tuple. *)
Definition choice_list (result : pyval) : option (list pyval) :=
  match result with
  | VObj attrs _ _ =>
      match attr_get attrs "content", attr_get attrs "choices" with
      | Raise AttributeError, Ok choices => is_sequence choices
      | _, _ => None
      end
  | VDict items =>
      match dict_get items (lit "choices") with
      | Some choices => is_sequence choices
      | None => None
      end
  | _ => None
  end.

(** The choices whose fields the code reads as the rule does: all but two
    kinds.  In a dict's "choices", an item that is not a dict and has no
    [message] is never asked for its [text]: it is recursed on, and the
    recursion reads a [content] attribute first; such an item is in when it
    has no [text] or no [content].  In an object's [choices], a dict is
    asked for attributes, which it has not, and never for its keys; it is
    in when it has neither a "message" nor a "text" key. *)
Definition rule_kept (result c : pyval) : bool :=
  match result, c with
  | VDict _, VObj attrs _ _ =>
      match attr_get attrs "message", attr_get attrs "text",
            attr_get attrs "content" with
      | Raise AttributeError, Ok _, Raise AttributeError => true
      | Raise AttributeError, Ok _, _ => false
      | _, _, _ => true
      end
  | VDict _, _ => true
  | _, VDict entries =>
      match dict_get entries (lit "message"), dict_get entries (lit "text") with
      | None, None => true
      | _, _ => false
      end
  | _, _ => true
  end.

(** An int [str] converts. *)
Definition small_int (z : Z) : bool := (digits z <=? int_max_str_digits)%Z.

Definition plain_key (k : pykey) : bool :=
  match k with KInt z => small_int z | _ => true end.

(** A value built from the builtin types only: no object inside, and no
    int beyond the limit of [str]. *)
Fixpoint plain (v : pyval) : bool :=
  match v with
  | VInt z => small_int z
  | VDict items => forallb (fun kv => plain_key (fst kv) && plain (snd kv)) items
  | VList xs | VTuple xs => forallb plain xs
  | VObj _ _ _ => false
  | _ => true
  end.

(** How deep dicts, lists and tuples are nested in a value.  The recursion
    of [_extract_text] takes at most two frames a level, one of them for
    the comprehension; the interpreter's recursion limit, 1000 frames by
    default, is not part of the model. *)
Fixpoint depth (v : pyval) : nat :=
  match v with
  | VDict items => S (list_max (map (fun kv => depth (snd kv)) items))
  | VList xs | VTuple xs => S (list_max (map depth xs))
  | _ => 0
  end.

(** A nesting that stays well inside the recursion limit. *)
Definition nesting_bound : nat := 100.








(** ** Notions used in the further properties *)

(** [0-9] *)
Definition is_digit (c : char) : bool := in_range 48%N 57%N c.

(** ** utils/filenames.py *)

(** [a or b] on strings. *)
Definition py_or (a b : pystr) : pystr := if truthy a then a else b.

(** [re.sub] for a pattern "[...]+", a run of characters of one class:
    every maximal run of characters of [cls] is replaced by [repl].
    [inside] tells whether the character before belonged to the run now
    being replaced. *)
Fixpoint sub_from (cls : char -> bool) (repl : pystr) (inside : bool)
  (s : pystr) : pystr :=
  match s with
  | [] => []
  | c :: s' =>
      if cls c
      then if inside then sub_from cls repl true s'
           else repl ++ sub_from cls repl true s'
      else c :: sub_from cls repl false s'
  end.

Definition re_sub_runs (cls : char -> bool) (repl s : pystr) : pystr :=
  sub_from cls repl false s.

(** [s.lstrip(chars)], [s.rstrip(chars)] and [s.strip(chars)] for a set of
    characters. *)
Fixpoint lstrip_chars (chars : char -> bool) (s : pystr) : pystr :=
  match s with
  | c :: s' => if chars c then lstrip_chars chars s' else s
  | [] => []
  end.

Definition rstrip_chars (chars : char -> bool) (s : pystr) : pystr :=
  rev (lstrip_chars chars (rev s)).

Definition strip_chars (chars : char -> bool) (s : pystr) : pystr :=
  rstrip_chars chars (lstrip_chars chars s).

Definition dash : char := 45%N.   (* "-" *)
Definition dot : char := 46%N.    (* "." *)

Definition is_dash (c : char) : bool := (c =? dash)%N.
Definition is_dot (c : char) : bool := (c =? dot)%N.

(** The class of [_UNICODE_DASHES_RE]: U+2010 to U+2015 and U+2212. *)
Definition is_unicode_dash (c : char) : bool :=
  in_range 8208%N 8213%N c || (c =? 8722)%N.

(** The class of [_SEPARATORS_RE]: [\s_]. *)
Definition is_separator (c : char) : bool := isspace c || (c =? 95)%N.

(** [A-Za-z0-9] *)
Definition is_alnum (c : char) : bool :=
  in_range 65%N 90%N c || in_range 97%N 122%N c || in_range 48%N 57%N c.

(** [a-z0-9] *)
Definition is_lower_alnum (c : char) : bool :=
  in_range 97%N 122%N c || in_range 48%N 57%N c.

(** [A-Za-z0-9.-], the class [_INVALID_BASE_CHAR_RE] negates. *)
Definition is_base_char (c : char) : bool :=
  is_alnum c || is_dot c || is_dash c.

Definition is_ascii (c : char) : bool := (c <? 128)%N.

(** [s.lower()] on ASCII text, the only text the code lowers. *)
Definition lower (s : pystr) : pystr :=
  map (fun c => if in_range 65%N 90%N c then (c + 32)%N else c) s.

(** [s.rfind(c)] for the characters of a class: the last index, or -1. *)
Fixpoint rfind_from (cls : char -> bool) (i : Z) (found : Z) (s : pystr) : Z :=
  match s with
  | [] => found
  | c :: s' => rfind_from cls (i + 1) (if cls c then i else found) s'
  end.

Definition rfind (cls : char -> bool) (s : pystr) : Z := rfind_from cls 0 (-1) s.

(** [genericpath._splitext(p, sep, altsep, ".")]: [is_sep] holds of [sep]
    and of [altsep] when there is one.  The loop of the library skips the
    leading dots of the last component; it splits at the last dot when a
    character other than a dot stands between the last separator and it. *)
Definition splitext (is_sep : char -> bool) (p : pystr) : pystr * pystr :=
  let sepIndex := rfind is_sep p in
  let dotIndex := rfind is_dot p in
  if (dotIndex >? sepIndex)%Z
     && existsb (fun c => negb (is_dot c))
          (Re.slice p (Z.to_nat (sepIndex + 1)) (Z.to_nat dotIndex))
  then (firstn (Z.to_nat dotIndex) p, skipn (Z.to_nat dotIndex) p)
  else (p, []).

(** The separator of [posixpath]. *)
Definition posix_sep (c : char) : bool := (c =? 47)%N.

Section Filenames.
(** [unicodedata.normalize("NFKD", _)], whose tables are not part of the
    repository. *)
Variable nfkd : pystr -> pystr.
(** The separators of [os.path]: "/" for posixpath, "\" and "/" for
    ntpath. *)
Variable is_sep : char -> bool.

Definition _ascii_normalize (value : pystr) : pystr :=
  let value := re_sub_runs is_unicode_dash [dash] value in
  let normalized := nfkd value in
  (* normalized.encode("ascii", "ignore").decode("ascii") *)
  filter is_ascii normalized.

Definition sanitize_filename_component (value fallback : pystr) : pystr :=
  let normalized := _ascii_normalize (py_or value []) in
  let normalized := re_sub_runs is_separator [dash] normalized in
  let normalized := re_sub_runs (fun c => negb (is_base_char c)) [dash] normalized in
  let normalized := re_sub_runs is_dash [dash] normalized in
  let normalized := strip_chars (fun c => is_dash c || is_dot c) normalized in
  py_or normalized fallback.

Definition sanitize_filename (filename fallback : pystr) : pystr :=
  let raw := strip (py_or filename []) in
  let (base, ext) := splitext is_sep raw in
  let safe_base := sanitize_filename_component (py_or base raw) fallback in
  let safe_ext := _ascii_normalize ext in
  let safe_ext :=
    re_sub_runs (fun c => negb (is_alnum c)) [] (lstrip_chars is_dot safe_ext) in
  if truthy safe_ext then safe_base ++ [dot] ++ lower safe_ext else safe_base.
End Filenames.

(** A name the sanitiser is done with: not empty, made of letters, digits,
    dots and dashes, with a letter or digit at each end and no two dashes
    in a row. *)
Definition starts_alnum (s : pystr) : bool :=
  match s with c :: _ => is_alnum c | [] => false end.

Definition starts_with_dash (s : pystr) : bool :=
  match s with c :: _ => is_dash c | [] => false end.

Fixpoint no_double_dash (s : pystr) : bool :=
  match s with
  | c :: s' =>
      match s' with
      | d :: _ => negb (is_dash c && is_dash d) && no_double_dash s'
      | [] => true
      end
  | [] => true
  end.

Definition clean_name (s : pystr) : bool :=
  forallb is_base_char s && starts_alnum s && starts_alnum (rev s)
  && no_double_dash s.

(** ** utils/ids.py *)

(** [string.ascii_lowercase + string.digits] *)
Definition alphabet : pystr := lit "abcdefghijklmnopqrstuvwxyz0123456789".

Section Ids.
(** The index [secrets.choice] draws in the alphabet at its i-th call. *)
Variable drawn : nat -> nat.

(** [short_id(length)]: one draw for each element of [range(length)]. *)
Definition short_id (length : Z) : pystr :=
  map (fun i => nth (drawn i) alphabet 0%N) (seq 0 (Z.to_nat length)).
End Ids.

(** ** db/unit_of_work.py *)

Module Uow.

(** An [AsyncSession], by name. *)
Definition session := nat.

(** The calls a unit of work makes on its collaborators. *)
Inductive call :=
| Create_session            (* self._create_session() *)
| Commit (s : session)      (* await s.commit() *)
| Rollback (s : session)    (* await s.rollback() *)
| Close (s : session)       (* await s.close() *)
| Clear_repos.              (* self._clear_repos() *)

(** The fields of [BaseUnitOfWork]. *)
Record uow := Build {
  _injected_session : option session;
  _session : option session;
  _owns_session : bool
}.

(** [BaseUnitOfWork(session)] *)
Definition new (injected : option session) : uow :=
  Build injected None false.

Section Collaborators.
(** What the collaborators do: whether a call raises, given the calls made
    before it, and the session [_create_session] returns when it does not
    raise.  (In the base class [_create_session] always raises; a subclass
    overrides it, and may override [_clear_repos].) *)
Variable raises : list call -> call -> option exn.
Variable created : list call -> session.

(** The state of the object and the calls made so far, oldest first. *)
Definition state := (uow * list call)%type.

Definition perform (c : call) (log : list call) : list call * res unit :=
  (log ++ [c], match raises log c with Some e => Raise e | None => Ok tt end).

(** The [session] property (lines 46-60). *)
Definition get_session (st : state) : state * res session :=
  let (u, log) := st in
  match _session u with
  | Some s => (st, Ok s)
  | None =>
      match _injected_session u with
      | Some s => ((Build (_injected_session u) (Some s) false, log), Ok s)
      | None =>
          let (log', r) := perform Create_session log in
          match r with
          | Ok _ =>
              let s := created log in
              ((Build (_injected_session u) (Some s) true, log'), Ok s)
          | Raise e => ((u, log'), Raise e)
          end
      end
  end.

(** [commit()] and [rollback()] (lines 80-88). *)
Definition commit (st : state) : state * res unit :=
  let (u, log) := st in
  match _session u with
  | Some s => let (log', r) := perform (Commit s) log in ((u, log'), r)
  | None => (st, Ok tt)
  end.

Definition rollback (st : state) : state * res unit :=
  let (u, log) := st in
  match _session u with
  | Some s => let (log', r) := perform (Rollback s) log in ((u, log'), r)
  | None => (st, Ok tt)
  end.

(** The transaction call of [__aexit__]: rollback when an exception is
    passed, commit otherwise. *)
Definition finish (exc : bool) (s : session) : call :=
  if exc then Rollback s else Commit s.

(** One statement after another: the second runs when the first did not
    raise. *)
Definition and_then (a b : list call -> list call * res unit)
  (log : list call) : list call * res unit :=
  let (log', r) := a log in
  match r with
  | Ok _ => b log'
  | Raise e => (log', Raise e)
  end.

Definition skip (log : list call) : list call * res unit := (log, Ok tt).

(** [__aexit__(exc_type, exc_val, exc_tb)], [exc] telling whether
    [exc_type] is set (lines 93-111). *)
Definition aexit (exc : bool) (st : state) : state * res unit :=
  let (u, log) := st in
  let body :=
    and_then
      match _session u with
      | Some s =>
          if _owns_session u
          then and_then (perform (finish exc s)) (perform (Close s))
          else perform (finish exc s)
      | None => skip
      end
      (perform Clear_repos) in
  let (log', r) := body log in
  match r with
  | Ok _ =>
      if _owns_session u
      then ((Build (_injected_session u) None false, log'), Ok tt)
      else ((u, log'), Ok tt)
  | Raise e => ((u, log'), Raise e)
  end.

(** Calls made one after the other; the first that raises ends them. *)
Fixpoint perform_all (cs : list call) (log : list call) : list call * res unit :=
  match cs with
  | [] => (log, Ok tt)
  | c :: cs' => and_then (perform c) (perform_all cs') log
  end.

(** What a user does with a unit of work. *)
Inductive action :=
| Get_session
| Do_commit
| Do_rollback
| Do_exit (exc : bool).

(** One action; an exception it raises is the caller's to handle, the
    object stays as the action left it. *)
Definition step (a : action) (st : state) : state :=
  match a with
  | Get_session => fst (get_session st)
  | Do_commit => fst (commit st)
  | Do_rollback => fst (rollback st)
  | Do_exit exc => fst (aexit exc st)
  end.

Definition run (actions : list action) (st : state) : state :=
  fold_left (fun st a => step a st) actions st.

End Collaborators.

(** The calls [__aexit__] sets out to make, in order. *)
Definition exit_calls (u : uow) (exc : bool) : list call :=
  match _session u with
  | Some s =>
      if _owns_session u then [finish exc s; Close s; Clear_repos]
      else [finish exc s; Clear_repos]
  | None => [Clear_repos]
  end.

(** What the [i]-th of [calls] does, raise or not, when it is made after
    [log] and the calls before it. *)
Definition nth_raises (raises : list call -> call -> option exn)
  (log calls : list call) (i : nat) : option exn :=
  raises (log ++ firstn i calls) (nth i calls Clear_repos).

(** The calls a unit of work may make on a session handed to it. *)
Definition on_injected (s : session) (c : call) : Prop :=
  c = Commit s \/ c = Rollback s \/ c = Clear_repos.

(** A call on the session [s]. *)
Definition uses (s : session) (c : call) : Prop :=
  c = Commit s \/ c = Rollback s \/ c = Close s.

(** No call on a session comes after the call that closed it. *)
Definition never_after_close (log : list call) : Prop :=
  forall l1 c l2 s, log = l1 ++ c :: l2 -> uses s c -> ~ In (Close s) l1.

(** What holds all along of a unit built around the session [s]. *)
Definition injected_inv (s : session) (st : state) : Prop :=
  _injected_session (fst st) = Some s /\
  _owns_session (fst st) = false /\
  (_session (fst st) = None \/ _session (fst st) = Some s) /\
  Forall (on_injected s) (snd st).

(** No collaborator raises. *)
Definition quiet : list call -> call -> option exn := fun _ _ => None.

(** What holds all along of a unit that creates its sessions. *)
Definition owner_inv (st : state) : Prop :=
  _injected_session (fst st) = None /\
  never_after_close (snd st) /\
  match _session (fst st) with
  | Some s => _owns_session (fst st) = true /\ ~ In (Close s) (snd st)
  | None => _owns_session (fst st) = false
  end.

(** A session no call has named yet. *)
Definition session_of (c : call) : session :=
  match c with
  | Commit s | Rollback s | Close s => s
  | _ => 0
  end.

Definition fresh_session (log : list call) : session :=
  S (fold_right (fun c m => Nat.max (session_of c) m) 0 log).

End Uow.

(** ** llm/client.py *)

Module Client.

(** The calls [_invoke_with_tracing] makes on its collaborators. *)
Inductive event :=
| Start_span                  (* langfuse_client.start_as_current_span(...) *)
| Enter_span                  (* __enter__ of the span's context manager *)
| Make_handler                (* callback_handler_cls() *)
| Invoke (traced : bool)      (* await chain.ainvoke(context[, config]) *)
| Update_trace                (* span.update_trace(output=...) *)
| Exit_span (error : bool)    (* __exit__, with or without an exception *)
| Flush.                      (* getattr(client, "flush", None) and its call *)

(** What the collaborators do in one call of [_invoke_with_tracing]: for
    each call, the exception it raises if any; for the two invocations of
    the chain, what they return; for [__exit__] on an exception, whether
    it swallows it.  Cancellation of the task is not an [Exception] and is
    left out. *)
Record world := {
  has_client : bool;            (* _get_langfuse_client() is truthy *)
  start_span : option exn;
  enter_span : option exn;
  make_handler : option exn;
  invoke_traced : res pyval;
  update_trace : option exn;
  exit_plain : option exn;
  exit_error : res bool;
  invoke_plain : res pyval;
  flush : option exn
}.

(** What the caller of [_invoke_with_tracing] gets: a string, an exception,
    or the [UnboundLocalError] of [return normalized] when [normalized] was
    never assigned. *)
Inductive outcome :=
| Returned (s : pystr)
| Raised (e : exn)
| Unbound_local.

(** A computation that makes calls: from the calls made so far to those
    made after it, with its result. *)
Definition M (A : Type) := list event -> list event * res A.

Definition ret {A} (a : A) : M A := fun log => (log, Ok a).

Definition fail {A} (e : exn) : M A := fun log => (log, Raise e).

Definition then_ {A B} (m : M A) (f : A -> M B) : M B :=
  fun log =>
    let (log', r) := m log in
    match r with
    | Ok a => f a log'
    | Raise e => (log', Raise e)
    end.

(** One call on a collaborator. *)
Definition call {A} (ev : event) (r : res A) : M A :=
  fun log => (log ++ [ev], r).

(** A computation of this repository, which makes no call. *)
Definition local {A} (r : res A) : M A := fun log => (log, r).

(** [try: m except Exception: handler] *)
Definition catch {A} (m : M A) (handler : M A) : M A :=
  fun log =>
    let (log', r) := m log in
    match r with
    | Ok a => (log', Ok a)
    | Raise _ => handler log'
    end.

Definition unit_of (o : option exn) : res unit :=
  match o with Some e => Raise e | None => Ok tt end.

Notation "x <~ m ;; k" := (then_ m (fun x => k))
  (at level 61, m at next level, right associativity).

Section Invoke.
Variable w : world.

(** [with client.start_as_current_span(...) as span: body]: the names
    [body] binds are lost when [__exit__] swallows its exception. *)
Definition with_span {A} (body : M A) : M (option A) :=
  _ <~ call Start_span (unit_of (start_span w)) ;;
  _ <~ call Enter_span (unit_of (enter_span w)) ;;
  fun log =>
    let (log', r) := body log in
    match r with
    | Ok a =>
        (_ <~ call (Exit_span false) (unit_of (exit_plain w)) ;; ret (Some a)) log'
    | Raise e =>
        (swallow <~ call (Exit_span true) (exit_error w) ;;
         if (swallow : bool) then ret None else fail e) log'
    end.

(** Lines 200-201 and 190-191: the invocation without tracing. *)
Definition invoke_untraced : M (option pystr) :=
  result <~ call (Invoke false) (invoke_plain w) ;;
  normalized <~ local (normalize_result result) ;;
  ret (Some normalized).

(** [_invoke_with_tracing(chain, prompt_name, context)] (lines 172-203);
    the value is [normalized], when it was assigned. *)
Definition invoke_body : M (option pystr) :=
  if has_client w then
    normalized <~
      catch
        (with_span
           (_ <~ call Make_handler (unit_of (make_handler w)) ;;
            result <~ call (Invoke true) (invoke_traced w) ;;
            normalized <~ local (normalize_result result) ;;
            _ <~ catch (call Update_trace (unit_of (update_trace w))) (ret tt) ;;
            ret normalized))
        invoke_untraced ;;
    _ <~ catch (call Flush (unit_of (flush w))) (ret tt) ;;
    ret normalized
  else invoke_untraced.

Definition _invoke_with_tracing : list event * outcome :=
  let (log, r) := invoke_body [] in
  (log,
   match r with
   | Ok (Some s) => Returned s
   | Ok None => Unbound_local
   | Raise e => Raised e
   end).
End Invoke.

Definition is_invoke (ev : event) : bool :=
  match ev with Invoke _ => true | _ => false end.

(** The fields [_langfuse] and [_langfuse_initialized] of [LLMClient]. *)
Record tracing := {
  _langfuse : option nat;
  _langfuse_initialized : bool
}.

(** What [_get_langfuse_client] finds around it when called: whether
    LANGCHAIN_TRACING_V2 reads false, 0, no or off, whether both langfuse
    imports succeeded, and what [get_client] does, [None] when the module
    has no such callable. *)
Record surroundings := {
  tracing_disabled : bool;
  langfuse_imported : bool;
  get_client : option (res nat)
}.

(** [_get_langfuse_client()] (lines 69-91): the fields after the call, the
    number of calls of [get_client] made, and the client returned. *)
Definition _get_langfuse_client (env : surroundings) (t : tracing)
  : tracing * nat * option nat :=
  if _langfuse_initialized t then (t, 0, _langfuse t)
  else
    let t1 := {| _langfuse := _langfuse t; _langfuse_initialized := true |} in
    if tracing_disabled env then (t1, 0, None)
    else if negb (langfuse_imported env) then (t1, 0, None)
    else
      match get_client env with
      | Some (Ok c) =>
          ({| _langfuse := Some c; _langfuse_initialized := true |}, 1, Some c)
      | Some (Raise _) =>
          ({| _langfuse := None; _langfuse_initialized := true |}, 1, None)
      | None =>
          ({| _langfuse := None; _langfuse_initialized := true |}, 0, None)
      end.

(** Calls of [_get_langfuse_client] one after the other, each in its own
    surroundings: the fields at the end, the calls of [get_client] made in
    all, and the clients returned. *)
Fixpoint get_clients (envs : list surroundings) (t : tracing)
  : tracing * nat * list (option nat) :=
  match envs with
  | [] => (t, 0, [])
  | env :: envs' =>
      let '(t1, n1, c) := _get_langfuse_client env t in
      let '(t2, n2, cs) := get_clients envs' t1 in
      (t2, n1 + n2, c :: cs)
  end.

End Client.

(** * Properties *)

(** ** Trimming *)

Lemma lstrip_length (s : pystr) : length (lstrip s) <= length s.
Proof.
  induction s as [|c s IH]; simpl; [lia|].
  destruct (isspace c); simpl; lia.
Qed.

Lemma lstrip_app (x y : pystr) :
  lstrip (x ++ y) = if forallb isspace x then lstrip y else lstrip x ++ y.
Proof.
  induction x as [|c x IH]; simpl; [reflexivity|].
  destruct (isspace c); simpl; [exact IH | reflexivity].
Qed.

Lemma lstrip_all_space (x : pystr) : forallb isspace x = true -> lstrip x = [].
Proof.
  induction x as [|c x IH]; simpl; [reflexivity|].
  destruct (isspace c); simpl; [exact IH | discriminate].
Qed.

Lemma lstrip_idem (s : pystr) : lstrip (lstrip s) = lstrip s.
Proof.
  induction s as [|c s IH]; simpl; [reflexivity|].
  destruct (isspace c) eqn:E; [exact IH | simpl; now rewrite E].
Qed.

Lemma strip_length (s : pystr) : length (strip s) <= length s.
Proof.
  unfold strip, rstrip. rewrite length_rev.
  pose proof (lstrip_length (rev (lstrip s))) as H1.
  rewrite length_rev in H1. pose proof (lstrip_length s). lia.
Qed.

Lemma trimmed_strip (s : pystr) : trimmed s -> strip s = s.
Proof.
  intros [H1 H2]. unfold strip, rstrip. now rewrite H1, H2, rev_involutive.
Qed.

Lemma lstrip_keeps_last (x : pystr) (c : char) :
  isspace c = false -> lstrip (x ++ [c]) = lstrip x ++ [c].
Proof.
  intros Hc. rewrite lstrip_app.
  destruct (forallb isspace x) eqn:E.
  - rewrite (lstrip_all_space _ E). simpl. now rewrite Hc.
  - reflexivity.
Qed.

Lemma strip_trimmed (s : pystr) : trimmed (strip s).
Proof.
  unfold trimmed, strip, rstrip. split.
  - destruct (lstrip s) as [|c r] eqn:E; [reflexivity|].
    assert (Hc : isspace c = false).
    { destruct (isspace c) eqn:Hc; [|reflexivity].
      pose proof (lstrip_idem s) as Hi. rewrite E in Hi. simpl in Hi.
      rewrite Hc in Hi. pose proof (lstrip_length r) as Hl.
      rewrite Hi in Hl. simpl in Hl. lia. }
    change (rev (c :: r)) with (rev r ++ [c]).
    rewrite (lstrip_keeps_last _ _ Hc), rev_app_distr. simpl.
    now rewrite Hc.
  - rewrite rev_involutive. apply lstrip_idem.
Qed.

Lemma strip_idem (s : pystr) : strip (strip s) = strip s.
Proof. apply trimmed_strip, strip_trimmed. Qed.

Lemma trimmed_ends (c d : char) (m : pystr) :
  isspace c = false -> isspace d = false -> trimmed (c :: m ++ [d]).
Proof.
  intros Hc Hd. split.
  - simpl. now rewrite Hc.
  - change (c :: m ++ [d]) with ((c :: m) ++ [d]).
    rewrite rev_app_distr. simpl. now rewrite Hd.
Qed.

Lemma trimmed_no_final_space (s r : pystr) (c : char) :
  trimmed s -> isspace c = true -> s <> r ++ [c].
Proof.
  intros [_ H] Hc ->. rewrite rev_app_distr in H. simpl in H.
  rewrite Hc in H. pose proof (lstrip_length (rev r)) as Hl.
  rewrite H in Hl. simpl in Hl. lia.
Qed.

Lemma strip_drop_final_space (s : pystr) (c : char) :
  isspace c = true -> strip (s ++ [c]) = strip s.
Proof.
  intros Hc. unfold strip, rstrip. rewrite lstrip_app.
  destruct (forallb isspace s) eqn:E.
  - rewrite (lstrip_all_space _ E). simpl. now rewrite Hc.
  - rewrite rev_app_distr. simpl. now rewrite Hc.
Qed.

(** ** Prefixes and suffixes *)

Lemma startswith_app (p s : pystr) : startswith (p ++ s) p = true.
Proof.
  induction p as [|c p IH]; simpl; [reflexivity|].
  now rewrite N.eqb_refl.
Qed.

Lemma startswith_inv (p s : pystr) :
  startswith s p = true -> exists r, s = p ++ r.
Proof.
  revert s. induction p as [|c p IH]; intros s H; simpl in *.
  - now exists s.
  - destruct s as [|d s]; [discriminate|].
    apply andb_prop in H as [H1 H2]. apply N.eqb_eq in H1. subst d.
    destruct (IH _ H2) as [r ->]. now exists r.
Qed.

Lemma endswith_app (s suffix : pystr) : endswith (s ++ suffix) suffix = true.
Proof. unfold endswith. rewrite rev_app_distr. apply startswith_app. Qed.

(** ** The greedy repeat *)

Section RepeatFacts.
Import Re.
Context {R : Type}.
Variables (a : atom) (lo : nat) (k : nat -> pystr -> option R).

(** The optional item [a?]. *)
Lemma rep_optional (pos : nat) (s : pystr) :
  rep a 0 (Some 1) k 0 pos s =
  match s with
  | c :: s' =>
      if accepts a c
      then match k (S pos) s' with Some r => Some r | None => k pos s end
      else k pos s
  | [] => k pos s
  end.
Proof.
  destruct s as [|c s']; simpl; [reflexivity|].
  destruct (accepts a c); simpl; [|reflexivity].
  destruct s' as [|d s'']; simpl; [reflexivity|].
  now rewrite andb_false_r.
Qed.

(** An unbounded repeat runs through a prefix it accepts whenever what
    follows cannot start inside that prefix. *)
Lemma rep_skip (m tail : pystr) :
  forallb (accepts a) m = true ->
  (forall c p s, In c m -> k p (c :: s) = None) ->
  forall n pos,
    rep a lo None k n pos (m ++ tail) =
    rep a lo None k (n + length m) (pos + length m) tail.
Proof.
  induction m as [|c m IH]; intros Hm Hk n pos; simpl.
  - now rewrite !Nat.add_0_r.
  - simpl in Hm. apply andb_prop in Hm as [Hc Hm].
    rewrite Hc. simpl. rewrite IH; [|exact Hm|intros; apply Hk; now right].
    replace (S n + length m) with (n + S (length m)) by lia.
    replace (S pos + length m) with (pos + S (length m)) by lia.
    rewrite (Hk c pos (m ++ tail) (or_introl eq_refl)).
    destruct (rep a lo None k _ _ tail); [reflexivity|].
    now destruct (lo <=? n).
Qed.

(** Greed: a success after the whole accepted prefix is the answer. *)
Lemma rep_take (m tail : pystr) (r : R) :
  forallb (accepts a) m = true ->
  forall n pos,
    rep a lo None k (n + length m) (pos + length m) tail = Some r ->
    rep a lo None k n pos (m ++ tail) = Some r.
Proof.
  induction m as [|c m IH]; intros Hm n pos H; simpl in *.
  - now rewrite !Nat.add_0_r in H.
  - apply andb_prop in Hm as [Hc Hm]. rewrite Hc. simpl.
    rewrite (IH Hm (S n) (S pos)); [reflexivity|].
    now replace (S n + length m) with (n + S (length m)) by lia;
      replace (S pos + length m) with (pos + S (length m)) by lia.
Qed.

(** A failed repeat has tried what follows after every accepted prefix
    long enough. *)
Lemma rep_none (s : pystr) :
  forall n pos,
    rep a lo None k n pos s = None ->
    forall i, i <= length s -> forallb (accepts a) (firstn i s) = true ->
              lo <= n + i -> k (pos + i) (skipn i s) = None.
Proof.
  induction s as [|c s IH]; intros n pos H i Hi Hacc Hlo; simpl in *.
  - assert (i = 0) by lia. subst i. rewrite !Nat.add_0_r in *.
    apply Nat.leb_le in Hlo. now rewrite Hlo in H.
  - destruct i as [|i].
    + rewrite !Nat.add_0_r in *. simpl.
      apply Nat.leb_le in Hlo. rewrite Hlo in H.
      destruct (accepts a c); simpl in H; [|exact H].
      now destruct (rep a lo None k (S n) (S pos) s).
    + simpl in Hacc. apply andb_prop in Hacc as [Hc Hacc].
      rewrite Hc in H. simpl in H.
      destruct (rep a lo None k (S n) (S pos) s) eqn:E; [discriminate|].
      replace (pos + S i) with (S pos + i) by lia.
      apply (IH (S n) (S pos) E i); [lia|exact Hacc|lia].
Qed.

(** A successful repeat took some accepted prefix, long enough, after
    which what follows succeeded, and no longer accepted prefix would
    have done. *)
Lemma rep_some (s : pystr) :
  forall n pos r,
    rep a lo None k n pos s = Some r ->
    exists j,
      j <= length s /\ lo <= n + j /\
      forallb (accepts a) (firstn j s) = true /\
      k (pos + j) (skipn j s) = Some r /\
      forall i, j < i -> i <= length s ->
                forallb (accepts a) (firstn i s) = true ->
                k (pos + i) (skipn i s) = None.
Proof.
  induction s as [|c s IH]; intros n pos r H; simpl in H.
  - destruct (lo <=? n) eqn:Hlo; [|discriminate].
    apply Nat.leb_le in Hlo. exists 0. rewrite !Nat.add_0_r. simpl.
    repeat split; try lia; try assumption.
  - destruct (accepts a c) eqn:Hc; simpl in H.
    + destruct (rep a lo None k (S n) (S pos) s) eqn:E.
      * injection H as ->. destruct (IH _ _ _ E) as (j & Hj & Hlo & Hacc & Hk & Hmax).
        exists (S j). simpl. rewrite Hc. simpl.
        replace (pos + S j) with (S pos + j) by lia.
        repeat split; try lia; try assumption.
        intros [|i] Hlt Hle Hi; [lia|]. simpl in Hi.
        apply andb_prop in Hi as [_ Hi].
        replace (pos + S i) with (S pos + i) by lia.
        apply Hmax; [lia|simpl in Hle; lia|exact Hi].
      * destruct (lo <=? n) eqn:Hlo; [|discriminate].
        apply Nat.leb_le in Hlo. exists 0. rewrite !Nat.add_0_r. simpl.
        repeat split; try lia; try assumption.
        intros [|i] Hlt Hle Hi; [lia|]. simpl in Hi.
        apply andb_prop in Hi as [_ Hi].
        replace (pos + S i) with (S pos + i) by lia.
        apply (rep_none s (S n) (S pos) E i); [simpl in Hle; lia|exact Hi|lia].
    + destruct (lo <=? n) eqn:Hlo; [|discriminate].
      apply Nat.leb_le in Hlo. exists 0. rewrite !Nat.add_0_r. simpl.
      repeat split; try lia; try assumption.
      intros [|i] Hlt Hle Hi; [lia|]. simpl in Hi. now rewrite Hc in Hi.
Qed.
End RepeatFacts.

(** ** What the fence patterns match *)

Lemma lang_char_not_nl (c : char) :
  Re.accepts Re.lang_class c = true -> (c =? nl)%N = false.
Proof.
  intros H. destruct (N.eqb_spec c nl) as [->|]; [discriminate H|reflexivity].
Qed.

Lemma slice_middle (x m y : pystr) :
  Re.slice (x ++ m ++ y) (length x) (length x + length m) = m.
Proof.
  unfold Re.slice. rewrite skipn_app, skipn_all, Nat.sub_diag. simpl.
  replace (length x + length m - length x) with (length m) by lia.
  rewrite firstn_app, Nat.sub_diag, firstn_all. simpl. apply app_nil_r.
Qed.

Lemma pattern_split : Re.pattern = opening closing.
Proof. reflexivity. Qed.

Lemma closing_fence (g : nat * nat) (pos : nat) :
  Re.run closing g pos fence = Some (fst g, pos).
Proof. reflexivity. Qed.

Lemma closing_short (g : nat * nat) (pos : nat) (s : pystr) :
  length s < 3 -> Re.run closing g pos s = None.
Proof.
  intros H. unfold closing. cbn [app Re.fence_ops Re.run]. rewrite rep_optional.
  destruct s as [|c1 [|c2 [|c3 s]]]; simpl in H; try lia; cbn [Re.run Re.accepts];
    repeat match goal with
           | |- context [(?c =? ?d)%N] => destruct (c =? d)%N
           end; reflexivity.
Qed.

Ltac split_eqb :=
  repeat match goal with
         | |- context [(?c =? ?d)%N] => destruct (N.eqb_spec c d); subst
         end.

Lemma ending_inv (g r : nat * nat) (pos : nat) (s : pystr) :
  Re.run (Re.fence_ops ++ [Re.At_end]) g pos s = Some r ->
  r = g /\ (s = fence \/ s = fence ++ [nl]).
Proof.
  cbn [app Re.fence_ops Re.run Re.accepts].
  destruct s as [|c1 [|c2 [|c3 [|c4 [|c5 s]]]]]; split_eqb;
    try discriminate; intros [= <-]; split; auto.
Qed.

Lemma closing_inv (g r : nat * nat) (pos : nat) (s : pystr) :
  Re.run closing g pos s = Some r ->
  r = (fst g, pos) /\
  (s = fence \/ s = fence ++ [nl] \/ s = nl :: fence \/ s = nl :: fence ++ [nl]).
Proof.
  unfold closing. cbn [app Re.run]. rewrite rep_optional.
  change (Re.run (Re.One (Re.Lit backtick) :: Re.One (Re.Lit backtick)
                    :: Re.One (Re.Lit backtick) :: [Re.At_end]))
    with (Re.run (Re.fence_ops ++ [Re.At_end])).
  destruct s as [|c s'].
  - intros H. now apply ending_inv in H as [-> [H|H]].
  - cbn [Re.accepts]. destruct (N.eqb_spec c nl) as [->|Hc].
    + destruct (Re.run _ _ (S pos) s') eqn:E.
      * intros [= <-]. apply ending_inv in E as [-> [->| ->]]; auto.
      * intros H. apply ending_inv in H as [-> [H|H]]; discriminate H.
    + intros H. apply ending_inv in H as [-> H]. split; [reflexivity|tauto].
Qed.

Lemma opening_run_fenced (q : list Re.op) (tag body : pystr) (r : nat * nat) :
  lang_tag tag = true -> body <> [] ->
  (forall p s, length s < 3 -> Re.run q (4 + length tag, 0) p s = None) ->
  Re.run q (4 + length tag, 0) (4 + length tag + length body) fence = Some r ->
  Re.run (opening q) (0, 0) 0 (fence ++ tag ++ nl :: body ++ fence) = Some r.
Proof.
  intros Htag Hbody Hshort Hq.
  cbn [opening Re.fence_ops app fence Re.run Nat.eqb Re.accepts backtick].
  rewrite !N.eqb_refl.
  rewrite rep_skip; [|exact Htag|].
  2:{ intros c p s Hin. cbn [Re.run Re.accepts].
      unfold lang_tag in Htag. rewrite forallb_forall in Htag.
      now rewrite (lang_char_not_nl _ (Htag _ Hin)). }
  cbn [Re.rep]. replace (Re.accepts Re.lang_class nl) with false by reflexivity.
  cbn [andb Nat.leb Re.run Re.accepts fst snd]. rewrite N.eqb_refl.
  apply rep_take; [now apply forallb_forall|].
  destruct body as [|b body]; [contradiction|].
  simpl in Hshort, Hq.
  cbn [Re.rep Re.accepts Re.below andb length Nat.add Nat.leb fence].
  rewrite !Hshort by (simpl; lia). exact Hq.
Qed.

Lemma pattern_run_fenced (tag body : pystr) :
  lang_tag tag = true -> body <> [] ->
  Re.run Re.pattern (0, 0) 0 (fence ++ tag ++ nl :: body ++ fence) =
  Some (4 + length tag, 4 + length tag + length body).
Proof.
  intros Htag Hbody. rewrite pattern_split.
  apply opening_run_fenced; try assumption.
  - intros p s Hs. now apply closing_short.
  - apply closing_fence.
Qed.

Lemma pattern_match_fenced (t tag body : pystr) :
  fenced t tag body -> Re.re_match_group1 Re.pattern t = Some body.
Proof.
  intros (-> & Htag & Hbody). unfold Re.re_match_group1.
  rewrite pattern_run_fenced by assumption. f_equal.
  replace (fence ++ tag ++ nl :: body ++ fence)
    with ((fence ++ tag ++ [nl]) ++ body ++ fence)
    by (now rewrite <- !app_assoc).
  replace (4 + length tag) with (length (fence ++ tag ++ [nl]))
    by (rewrite !length_app; simpl; lia).
  apply slice_middle.
Qed.

Ltac reassoc :=
  repeat (rewrite <- app_assoc || rewrite <- app_comm_cons); reflexivity.

Lemma forallb_any (s : pystr) : forallb (Re.accepts Re.Any) s = true.
Proof. now induction s. Qed.

Lemma split_at (j : nat) (s rest : pystr) :
  skipn j s = rest -> s = firstn j s ++ rest.
Proof. intros <-. symmetry. apply firstn_skipn. Qed.

Lemma pattern_run_inv (t : pystr) (r : nat * nat) :
  (forall u, t <> u ++ [nl]) ->
  Re.run Re.pattern (0, 0) 0 t = Some r ->
  exists tag body,
    fenced t tag body /\ r = (4 + length tag, 4 + length tag + length body).
Proof.
  intros Hend. rewrite pattern_split.
  destruct t as [|c1 [|c2 [|c3 rest]]];
    cbn [opening Re.fence_ops app Re.run Nat.eqb Re.accepts];
    split_eqb; try discriminate. intros H.
  apply rep_some in H as (j1 & Hj1 & _ & Htag & H & _).
  cbn [Re.run Re.accepts fst snd] in H.
  destruct (skipn j1 rest) as [|c r2] eqn:Hrest; [discriminate|].
  destruct (N.eqb_spec c nl) as [->|]; [|discriminate].
  apply rep_some in H as (j2 & Hj2 & Hlo & _ & H & Hmax).
  apply closing_inv in H as [-> Hcases]. cbn [fst] in *.
  apply split_at in Hrest.
  assert (Hshape : forall tail, skipn j2 r2 = tail ->
            backtick :: backtick :: backtick :: rest =
            fence ++ firstn j1 rest ++ nl :: firstn j2 r2 ++ tail).
  { intros tail Htail. apply split_at in Htail.
    rewrite <- Htail, <- Hrest. reflexivity. }
  destruct Hcases as [Hc|[Hc|[Hc|Hc]]].
  - exists (firstn j1 rest), (firstn j2 r2). split.
    + split; [now apply Hshape|]. split; [exact Htag|].
      intros Hnil. apply (f_equal (@length _)) in Hnil.
      rewrite length_firstn in Hnil. simpl in Hnil. lia.
    + rewrite !length_firstn. f_equal; lia.
  - exfalso. apply (Hend (fence ++ firstn j1 rest ++ nl :: firstn j2 r2 ++ fence)).
    rewrite (Hshape _ Hc). reassoc.
  - exfalso.
    assert (Hlen : length (skipn j2 r2) = 4) by now rewrite Hc.
    rewrite length_skipn in Hlen.
    specialize (Hmax (S j2) (Nat.lt_succ_diag_r _) ltac:(lia) (forallb_any _)).
    replace (skipn (S j2) r2) with fence in Hmax.
    + now rewrite closing_fence in Hmax.
    + change (S j2) with (1 + j2). now rewrite <- skipn_skipn, Hc.
  - exfalso.
    apply (Hend (fence ++ firstn j1 rest ++ nl :: firstn j2 r2 ++ nl :: fence)).
    rewrite (Hshape _ Hc). reassoc.
Qed.

(** The second pattern is the first with an empty tag: it matches nothing
    the first does not. *)
Lemma no_lang_run (t : pystr) (r : nat * nat) :
  Re.run Re.pattern_no_lang (0, 0) 0 t = Some r ->
  Re.run Re.pattern (0, 0) 0 t = Some r.
Proof.
  destruct t as [|c1 [|c2 [|c3 [|c4 rest]]]];
    cbn [Re.pattern Re.pattern_no_lang Re.fence_ops app Re.run Nat.eqb Re.accepts];
    split_eqb; try discriminate.
  cbn [Re.rep]. replace (Re.accepts Re.lang_class nl) with false by reflexivity.
  cbn [andb Nat.leb Re.run Re.accepts]. now rewrite N.eqb_refl.
Qed.

Lemma no_lang_subsumed (t : pystr) :
  Re.re_match_group1 Re.pattern t = None ->
  Re.re_match_group1 Re.pattern_no_lang t = None.
Proof.
  unfold Re.re_match_group1.
  destruct (Re.run Re.pattern_no_lang (0, 0) 0 t) as [[i j]|] eqn:E; [|reflexivity].
  now rewrite (no_lang_run _ _ E).
Qed.

Lemma pattern_match_inv (t body : pystr) :
  (forall u, t <> u ++ [nl]) ->
  Re.re_match_group1 Re.pattern t = Some body ->
  exists tag, fenced t tag body.
Proof.
  intros Hend. unfold Re.re_match_group1.
  destruct (Re.run Re.pattern (0, 0) 0 t) as [[i j]|] eqn:E; [|discriminate].
  destruct (pattern_run_inv _ _ Hend E) as (tag & body' & Hf & [= -> ->]).
  intros [= <-]. exists tag.
  pose proof (pattern_match_fenced _ _ _ Hf) as Hm. unfold Re.re_match_group1 in Hm.
  rewrite E in Hm. injection Hm as ->. exact Hf.
Qed.

(** ** The fence stripper, case by case *)

Lemma strip_no_final_nl (text u : pystr) : strip text <> u ++ [nl].
Proof. apply trimmed_no_final_space; [apply strip_trimmed | reflexivity]. Qed.

Lemma fenced_startswith (t tag body : pystr) :
  fenced t tag body -> startswith t fence = true.
Proof. intros (-> & _). apply startswith_app. Qed.

Lemma fenced_endswith (t tag body : pystr) :
  fenced t tag body -> endswith t fence = true.
Proof.
  intros (-> & _).
  replace (fence ++ tag ++ nl :: body ++ fence)
    with ((fence ++ tag ++ nl :: body) ++ fence) by reassoc.
  apply endswith_app.
Qed.

(** A fenced text gives its body, trimmed. *)
Lemma strip_fences_fenced (text tag body : pystr) :
  fenced (strip text) tag body ->
  strip_markdown_code_fences text = strip body.
Proof.
  intros Hf. unfold strip_markdown_code_fences.
  destruct text as [|c text].
  - destruct Hf as (Hf & _). discriminate Hf.
  - cbn [truthy negb]. rewrite (fenced_startswith _ _ _ Hf). cbn [negb].
    now rewrite (pattern_match_fenced _ _ _ Hf).
Qed.

(** Any other text is returned as it is. *)
Lemma strip_fences_unfenced (text : pystr) :
  (forall tag body, ~ fenced (strip text) tag body) ->
  strip_markdown_code_fences text = text.
Proof.
  intros Hnf. unfold strip_markdown_code_fences.
  destruct (negb (truthy text)); [reflexivity|].
  destruct (negb (startswith (strip text) fence)); [reflexivity|].
  destruct (Re.re_match_group1 Re.pattern (strip text)) as [body|] eqn:E.
  - destruct (pattern_match_inv _ _ (strip_no_final_nl text) E) as [tag Hf].
    now destruct (Hnf tag body).
  - now rewrite (no_lang_subsumed _ E).
Qed.

Lemma strip_fences_cases (text : pystr) :
  strip_markdown_code_fences text = text \/
  exists tag body,
    fenced (strip text) tag body /\
    strip_markdown_code_fences text = strip body.
Proof.
  unfold strip_markdown_code_fences.
  destruct (negb (truthy text)); [now left|].
  destruct (negb (startswith (strip text) fence)); [now left|].
  destruct (Re.re_match_group1 Re.pattern (strip text)) as [body|] eqn:E.
  - destruct (pattern_match_inv _ _ (strip_no_final_nl text) E) as [tag Hf].
    right. now exists tag, body.
  - left. now rewrite (no_lang_subsumed _ E).
Qed.

(** A tag ends at the first character that is not a tag character. *)
Lemma tag_unique (tag tag' rest rest' : pystr) :
  lang_tag tag = true -> lang_tag tag' = true ->
  tag ++ nl :: rest = tag' ++ nl :: rest' -> tag = tag' /\ rest = rest'.
Proof.
  revert tag'. induction tag as [|c tag IH]; intros [|c' tag'] H H' E;
    simpl in *.
  - injection E as ->. now split.
  - injection E as <- _. discriminate H'.
  - injection E as -> _. discriminate H.
  - injection E as -> E.
    apply andb_prop in H as [_ H]. apply andb_prop in H' as [_ H'].
    destruct (IH _ H H' E) as [-> ->]. now split.
Qed.

(** ** The fence stripper: stated properties *)

(** C4, as stated, fails: a text fenced twice loses one layer per call.
    On "```\n```\na\n```\n```" the first call gives "```\na\n```" and the
    second gives "a". *)
Lemma strip_fences_not_idempotent :
  let x := fence ++ [nl] ++ fence ++ [nl] ++ lit "a" ++ [nl] ++ fence ++ [nl] ++ fence in
  strip_markdown_code_fences x = fence ++ [nl] ++ lit "a" ++ [nl] ++ fence /\
  strip_markdown_code_fences (strip_markdown_code_fences x) = lit "a" /\
  strip_markdown_code_fences (strip_markdown_code_fences x)
    <> strip_markdown_code_fences x.
Proof. repeat split. discriminate. Qed.

Lemma fenced_length (t tag body : pystr) :
  fenced t tag body -> length t = 7 + length tag + length body.
Proof.
  intros (-> & _). rewrite !length_app. simpl. rewrite length_app. simpl. lia.
Qed.

(** A text whose trimmed form is a whole fence does not come back as it
    is: at least the markers and the line break are gone. *)
Lemma fenced_changes (t tag body : pystr) :
  fenced (strip t) tag body -> strip_markdown_code_fences t <> t.
Proof.
  intros Hf Heq. pose proof (strip_fences_fenced _ _ _ Hf) as H.
  rewrite Heq in H. apply (f_equal (@length _)) in H.
  pose proof (strip_length body). pose proof (strip_length t) as Ht.
  rewrite (fenced_length _ _ _ Hf) in Ht. lia.
Qed.

(** C4, amended: a second call changes nothing exactly when the text is not
    fenced twice, that is, unless its trimmed form is a whole fence whose
    trimmed body is a whole fence again. *)
Theorem strip_fences_idempotent_unless_nested (x : pystr) :
  strip_markdown_code_fences (strip_markdown_code_fences x)
  = strip_markdown_code_fences x
  <->
  ~ (exists tag body tag' body',
       fenced (strip x) tag body /\ fenced (strip body) tag' body').
Proof.
  split.
  - intros Hidem (tag & body & tag' & body' & Hf & Hf').
    rewrite (strip_fences_fenced _ _ _ Hf) in Hidem.
    apply (fenced_changes (strip body) tag' body'); [|exact Hidem].
    now rewrite strip_idem.
  - intros Hnot.
    destruct (strip_fences_cases x) as [Hx|(tag & body & Hf & Hx)];
      [now rewrite !Hx|].
    rewrite Hx. apply strip_fences_unfenced. intros tag' body' Hf'.
    rewrite strip_idem in Hf'. apply Hnot. now exists tag, body, tag', body'.
Qed.

Lemma strip_fences_idempotent_unless_nested_witness :
  let x := fence ++ [nl] ++ fence ++ lit "a" ++ [nl] ++ fence in
  strip_markdown_code_fences x = fence ++ lit "a" /\
  strip_markdown_code_fences (strip_markdown_code_fences x)
  = strip_markdown_code_fences x.
Proof.
  cbv zeta. split; [reflexivity|].
  apply strip_fences_idempotent_unless_nested.
  intros (tag & body & tag' & body' & Hf & Hf').
  apply strip_fences_fenced in Hf.
  change (fence ++ lit "a" = strip body) in Hf. rewrite <- Hf in Hf'.
  apply fenced_length in Hf'. simpl in Hf'. lia.
Defined.

(** C5, as stated, fails: the captured body is trimmed, so a body with
    whitespace at an end does not come back.  For the body " a" the result
    is "a". *)
Lemma strip_fences_round_trip_fails :
  let body := lit " a" in
  contains body fence = false /\
  strip_markdown_code_fences (fence ++ [nl] ++ body ++ [nl] ++ fence) = lit "a" /\
  strip_markdown_code_fences (fence ++ [nl] ++ body ++ [nl] ++ fence) <> body.
Proof. repeat split. discriminate. Qed.

(** C5, amended: for every body, "```\n" + body + "\n```" is stripped to
    the body with its leading and trailing whitespace removed, which is the
    body itself when it has none. *)
Theorem strip_fences_round_trip_trimmed (body : pystr) :
  strip_markdown_code_fences (fence ++ [nl] ++ body ++ [nl] ++ fence)
  = strip body.
Proof.
  rewrite <- (strip_drop_final_space body nl eq_refl).
  apply strip_fences_fenced with (tag := []).
  rewrite trimmed_strip.
  - split; [|split]; [reassoc|reflexivity|now destruct body].
  - change (fence ++ [nl] ++ body ++ [nl] ++ fence)
      with (backtick :: (backtick :: backtick :: nl :: body ++ [nl] ++ fence)).
    replace (backtick :: backtick :: nl :: body ++ [nl] ++ fence)
      with ((backtick :: backtick :: nl :: body ++ [nl; backtick; backtick]) ++ [backtick])
      by (cbn [app]; rewrite <- app_assoc; reflexivity).
    now apply trimmed_ends.
Qed.

(** C6: when the trimmed text does not both start and end with a
    triple-backtick marker, the input comes back unchanged, untrimmed. *)
Theorem strip_fences_partial_unchanged (text : pystr) :
  startswith (strip text) fence && endswith (strip text) fence = false ->
  strip_markdown_code_fences text = text.
Proof.
  intros H. apply strip_fences_unfenced. intros tag body Hf.
  now rewrite (fenced_startswith _ _ _ Hf), (fenced_endswith _ _ _ Hf) in H.
Qed.

Lemma strip_fences_partial_unchanged_witness :
  let prefixed := lit "some text" ++ [nl] ++ fence ++ lit "json" ++ [nl] ++ lit "{}" ++ [nl] ++ fence in
  let unclosed := lit " " ++ fence ++ lit "json" ++ [nl] ++ lit "{}" ++ [nl] in
  (startswith (strip prefixed) fence && endswith (strip prefixed) fence = false /\
   strip_markdown_code_fences prefixed = prefixed) /\
  (startswith (strip unclosed) fence && endswith (strip unclosed) fence = false /\
   strip_markdown_code_fences unclosed = unclosed).
Proof.
  cbv zeta.
  split; (split; [reflexivity | apply strip_fences_partial_unchanged; reflexivity]).
Defined.

(** C9: the result is the input itself or the trimmed body of the fence
    that wraps the trimmed input; it is never longer than the input. *)
Theorem strip_fences_never_longer (t : pystr) :
  length (strip_markdown_code_fences t) <= length t /\
  (strip_markdown_code_fences t = t \/
   exists tag body,
     fenced (strip t) tag body /\
     strip_markdown_code_fences t = strip body).
Proof.
  destruct (strip_fences_cases t) as [H|(tag & body & Hf & H)].
  - rewrite H. split; [lia|now left].
  - split; [|right; now exists tag, body].
    rewrite H. destruct Hf as (Hf & _).
    pose proof (strip_length body). pose proof (strip_length t) as Ht.
    rewrite Hf in Ht. rewrite !length_app in Ht. simpl in Ht.
    rewrite length_app in Ht. lia.
Qed.

(** C10: an opening marker with or without a language tag, a line break and
    the closing marker at once: the group "(.+)" has nothing to capture, no
    pattern matches, and the input comes back unchanged. *)
Theorem strip_fences_empty_body_unchanged (tag : pystr) :
  lang_tag tag = true ->
  strip_markdown_code_fences (fence ++ tag ++ [nl] ++ fence)
  = fence ++ tag ++ [nl] ++ fence.
Proof.
  intros Htag. apply strip_fences_unfenced. intros tag' body (Hf & Htag' & Hbody).
  rewrite trimmed_strip in Hf.
  - apply app_inv_head in Hf. cbn [app] in Hf.
    apply tag_unique in Hf as [_ Hf]; try assumption.
    apply (f_equal (@length _)) in Hf. rewrite length_app in Hf.
    destruct body; [now apply Hbody|simpl in Hf; lia].
  - change (fence ++ tag ++ [nl] ++ fence)
      with (backtick :: (backtick :: backtick :: tag ++ [nl] ++ fence)).
    replace (backtick :: backtick :: tag ++ [nl] ++ fence)
      with ((backtick :: backtick :: tag ++ [nl; backtick; backtick]) ++ [backtick])
      by (cbn [app]; rewrite <- app_assoc; reflexivity).
    now apply trimmed_ends.
Qed.

Lemma strip_fences_empty_body_unchanged_witness :
  (lang_tag [] = true /\
   strip_markdown_code_fences (fence ++ [] ++ [nl] ++ fence)
   = fence ++ [] ++ [nl] ++ fence) /\
  (lang_tag (lit "json") = true /\
   strip_markdown_code_fences (fence ++ lit "json" ++ [nl] ++ fence)
   = fence ++ lit "json" ++ [nl] ++ fence).
Proof.
  split; (split; [reflexivity | apply strip_fences_empty_body_unchanged; reflexivity]).
Defined.

(** ** The extractor *)

Lemma read_then_spec {V W} (f : V -> W) (attrs : list (string * res V))
  (name : string) :
  read_then f attrs name
  = match attr_get attrs name with Ok v => Ok (f v) | Raise e => Raise e end.
Proof.
  unfold read_then. induction attrs as [|[n a] attrs IH]; simpl; [reflexivity|].
  now destruct (String.eqb n name).
Qed.

(** On an object with a readable [content], [_extract_text] is the
    extraction of that attribute with its failure absorbed. *)
Lemma extract_text_object_content attrs model_dump repr (v : pyval) :
  getattr (VObj attrs model_dump repr) "content" = Ok v ->
  _extract_text (VObj attrs model_dump repr)
  = try_except (_extract_text v) (Ok []).
Proof.
  cbn [getattr _extract_text]. intros H. rewrite !read_then_spec, H. reflexivity.
Qed.

Lemma dict_get_map {V W} (f : V -> W) (items : list (pykey * V)) (name : pystr) :
  dict_get (map (fun kv => (fst kv, f (snd kv))) items) name
  = option_map f (dict_get items name).
Proof.
  induction items as [|[k v] items IH]; simpl; [reflexivity|].
  now destruct (key_is name k).
Qed.

(** Inside the recursion a dict with a "content" key gives what that value
    gives, whatever its other keys. *)
Lemma extract_text_dict_content (items : list (pykey * pyval)) (v : pyval) :
  dict_get items (lit "content") = Some v ->
  _extract_text (VDict items) = _extract_text v.
Proof.
  intros H. cbn [_extract_text]. now rewrite dict_get_map, H.
Qed.


(** *** Values without objects *)

Lemma for_each_ok {A B} (f : A -> res B) (l : list A) :
  (forall x, In x l -> exists y, f x = Ok y) -> exists ys, for_each f l = Ok ys.
Proof.
  induction l as [|x l IH]; intros H; simpl; [now eexists|].
  destruct (H x (or_introl eq_refl)) as [y ->].
  destruct IH as [ys ->]; [intros z Hz; apply H; now right|]. simpl. now eexists.
Qed.

Lemma str_int_small (z : Z) : small_int z = true -> str_int z = Ok (decimal z).
Proof.
  unfold small_int, str_int. intros H. apply Z.leb_le in H.
  destruct (Z.ltb_spec int_max_str_digits (digits z)); [lia|reflexivity].
Qed.

Lemma str_key_plain (k : pykey) :
  plain_key k = true -> exists s, str_key k = Ok s.
Proof.
  destruct k; cbn [plain_key str_key]; intros H; try (now eexists).
  rewrite (str_int_small _ H). now eexists.
Qed.

Lemma normalized_ok (items : list (pykey * pyval)) :
  (forall kv, In kv items ->
     plain_key (fst kv) = true /\ exists s, _extract_text (snd kv) = Ok s) ->
  forall d, exists d',
    fold_left (fun acc kv =>
                 d <- acc ;;
                 k <- str_key (fst kv) ;;
                 v <- _extract_text (snd kv) ;;
                 Ok (dict_set d k v))
              items (Ok d) = Ok d'.
Proof.
  induction items as [|kv items IH]; intros H d; simpl; [now eexists|].
  destruct (H kv (or_introl eq_refl)) as [Hk [s ->]].
  destruct (str_key_plain _ Hk) as [k ->]. simpl.
  apply IH. intros kv' Hin. apply H. now right.
Qed.

Lemma dict_get_in {V} (items : list (pykey * V)) (name : pystr) (v : V) :
  dict_get items name = Some v -> exists k, In (k, v) items.
Proof.
  induction items as [|[k w] items IH]; simpl; [discriminate|].
  destruct (key_is name k).
  - intros [= ->]. exists k. now left.
  - intros H. destruct (IH H) as [k' Hk']. exists k'. now right.
Qed.

Lemma extract_text_plain : forall v, plain v = true -> exists s, _extract_text v = Ok s.
Proof.
  fix IH 1. intros [| |z| | |items|xs|xs|attrs dump repr] Hp;
    try discriminate Hp; try (cbn [_extract_text]; now eexists).
  - cbn [_extract_text plain] in *. rewrite (str_int_small _ Hp). now eexists.
  - assert (Hall : forall kv, In kv items ->
               plain_key (fst kv) = true /\ exists s, _extract_text (snd kv) = Ok s).
    { cbn [plain] in Hp. clear -IH Hp. induction items as [|kv items IHi]; intros kv' Hin.
      - destruct Hin.
      - simpl in Hp. apply andb_prop in Hp as [H1 H2].
        apply andb_prop in H1 as [H0 H1]. destruct Hin as [<-|Hin].
        + split; [exact H0|apply IH, H1].
        + apply IHi; assumption. }
    cbn [_extract_text]. rewrite dict_get_map.
    destruct (dict_get items (lit "content")) as [v|] eqn:E; cbn [option_map].
    + destruct (dict_get_in _ _ _ E) as [k Hk]. apply (Hall (k, v) Hk).
    + destruct (normalized_ok items Hall []) as [d' ->]. simpl. now eexists.
  - assert (Hall : forall x, In x xs -> exists s, _extract_text x = Ok s).
    { cbn [plain] in Hp. clear -IH Hp. induction xs as [|x xs IHi]; intros x' Hin.
      - destruct Hin.
      - simpl in Hp. apply andb_prop in Hp as [H1 H2]. destruct Hin as [<-|Hin].
        + apply IH, H1.
        + apply IHi; assumption. }
    cbn [_extract_text]. destruct (for_each_ok _ xs Hall) as [ys ->]. simpl. now eexists.
  - assert (Hall : forall x, In x xs -> exists s, _extract_text x = Ok s).
    { cbn [plain] in Hp. clear -IH Hp. induction xs as [|x xs IHi]; intros x' Hin.
      - destruct Hin.
      - simpl in Hp. apply andb_prop in Hp as [H1 H2]. destruct Hin as [<-|Hin].
        + apply IH, H1.
        + apply IHi; assumption. }
    cbn [_extract_text]. destruct (for_each_ok _ xs Hall) as [ys ->]. simpl. now eexists.
Qed.

Lemma plain_dict_get (items : list (pykey * pyval)) (name : pystr) (v : pyval) :
  plain (VDict items) = true -> dict_get items name = Some v -> plain v = true.
Proof.
  cbn [plain]. intros Hp H. destruct (dict_get_in _ _ _ H) as [k Hk].
  rewrite forallb_forall in Hp. specialize (Hp _ Hk).
  now apply andb_prop in Hp as [_ Hp].
Qed.

Lemma plain_no_attr (v : pyval) (name : string) :
  plain v = true -> hasattr v name = Ok false.
Proof. now destruct v. Qed.

Lemma item_text_plain (item : pyval) :
  plain item = true -> exists s, item_text item = Ok s.
Proof.
  intros Hp. destruct item as [| | | | |entries|xs|xs|attrs dump repr];
    try discriminate Hp;
    try (unfold item_text; rewrite plain_no_attr by exact Hp;
         now apply extract_text_plain).
  unfold item_text.
  destruct (dict_get entries (lit "message")) as [m|] eqn:Em.
  - apply extract_text_plain, (plain_dict_get _ _ _ Hp Em).
  - destruct (dict_get entries (lit "text")) as [t|] eqn:Et.
    + apply extract_text_plain, (plain_dict_get _ _ _ Hp Et).
    + now apply extract_text_plain.
Qed.

Lemma plain_sequence (v : pyval) (xs : list pyval) :
  plain v = true -> is_sequence v = Some xs -> forall x, In x xs -> plain x = true.
Proof.
  intros Hp Hs. apply forallb_forall.
  destruct v; try discriminate Hs; injection Hs as <-; exact Hp.
Qed.

(** X14: no exception comes out of [normalize_result] for a value built
    without objects: strings, floats, booleans, None, ints that [str]
    converts (4300 digits at most), and dicts, lists and tuples of such
    values, nested no deeper than [nesting_bound] (the recursion limit of
    the interpreter, which the model leaves out, is then not reached). *)
Theorem normalize_result_plain (v : pyval) :
  plain v = true -> depth v <= nesting_bound ->
  exists s, normalize_result v = Ok s.
Proof.
  intros Hp _. unfold normalize_result.
  assert (H : exists s, extract_output v = Ok s).
  { destruct v as [| | | | |items|xs|xs|attrs dump repr];
      try discriminate Hp;
      try (unfold extract_output; rewrite !plain_no_attr by exact Hp;
           cbn [bind]; now apply extract_text_plain);
      try (cbn [extract_output]; now eexists).
    unfold extract_output. rewrite !plain_no_attr by exact Hp. cbn [bind].
    destruct (dict_get items (lit "choices")) as [choices|] eqn:Ec.
    - destruct (is_sequence choices) as [cs|] eqn:Es.
      + destruct (for_each_ok item_text cs) as [texts ->].
        * intros c Hc. apply item_text_plain.
          apply (plain_sequence choices cs (plain_dict_get _ _ _ Hp Ec) Es c Hc).
        * simpl. now eexists.
      + destruct (dict_get items (lit "message")) as [m|] eqn:Em.
        * apply extract_text_plain, (plain_dict_get _ _ _ Hp Em).
        * now apply extract_text_plain.
    - destruct (dict_get items (lit "message")) as [m|] eqn:Em.
      + apply extract_text_plain, (plain_dict_get _ _ _ Hp Em).
      + now apply extract_text_plain. }
  destruct H as [s ->]. simpl. now eexists.
Qed.

(** *** Stated properties *)

(** C3: a string goes through the extraction as it is and is then handed
    to the fence stripper once. *)
Theorem normalize_result_string (s : pystr) :
  normalize_result (VStr s) = Ok (strip_markdown_code_fences s).
Proof. reflexivity. Qed.

(** C1, which the code breaks: [normalize_result] lets an exception out.
    An object whose [model_dump] takes no keyword arguments raises
    [TypeError] on the first call and again on the retry made inside the
    [except TypeError] handler, where nothing catches it; an attribute whose
    read raises anything but [AttributeError] escapes through [hasattr]. *)
Theorem normalize_result_raises :
  normalize_result (VObj [] (Some (Raise TypeError, Raise TypeError))
                         (Ok (lit "<Legacy object>")))
  = Raise TypeError /\
  normalize_result (VObj [("content"%string, Raise RuntimeError)] None
                         (Ok (lit "<Lazy object>")))
  = Raise RuntimeError.
Proof. split; reflexivity. Qed.

(** C2, as stated, fails: at the entry point a dict with both keys follows
    the "choices" branch.  {"content": "x", "choices": ["y"]} gives "y",
    while its "content" value gives "x". *)
Lemma dict_content_and_choices_follows_choices :
  let d := VDict [(KStr (lit "content"), VStr (lit "x"));
                  (KStr (lit "choices"), VList [VStr (lit "y")])] in
  normalize_result d = Ok (lit "y") /\
  normalize_result (VStr (lit "x")) = Ok (lit "x") /\
  normalize_result d <> normalize_result (VStr (lit "x")).
Proof. repeat split. discriminate. Qed.

(** C2, amended: for a dict with a "content" key and a "choices" key holding
    a list or tuple, [normalize_result] follows the mapping-with-choices
    case (the items' texts, joined, then fence-stripped) and does not read
    "content"; the recursive extractor [_extract_text] on the same dict
    recurses on the value under "content". *)
Theorem dict_content_and_choices (items : list (pykey * pyval))
  (v choices : pyval) (cs : list pyval) :
  dict_get items (lit "content") = Some v ->
  dict_get items (lit "choices") = Some choices ->
  is_sequence choices = Some cs ->
  normalize_result (VDict items)
  = (texts <- for_each item_text cs ;;
     Ok (strip_markdown_code_fences (join_nonempty texts))) /\
  _extract_text (VDict items) = _extract_text v.
Proof.
  intros Hcontent Hchoices Hseq. split.
  - unfold normalize_result, extract_output. cbn [hasattr getattr hasattr_of bind].
    rewrite Hchoices, Hseq. now destruct (for_each item_text cs).
  - now apply extract_text_dict_content.
Qed.

Lemma dict_content_and_choices_witness :
  let items := [(KStr (lit "content"), VStr (lit "x"));
                (KStr (lit "choices"), VTuple [VStr (lit "y"); VStr (lit "z")])] in
  normalize_result (VDict items)
  = (texts <- for_each item_text [VStr (lit "y"); VStr (lit "z")] ;;
     Ok (strip_markdown_code_fences (join_nonempty texts))) /\
  _extract_text (VDict items) = _extract_text (VStr (lit "x")).
Proof.
  cbv zeta.
  apply dict_content_and_choices
    with (choices := VTuple [VStr (lit "y"); VStr (lit "z")]);
    reflexivity.
Defined.

(** *** The extraction does not look at backticks *)


Lemma uint_digits (d : Decimal.uint) :
  forallb is_digit (lit (NilEmpty.string_of_uint d)) = true.
Proof. induction d; simpl; auto. Qed.

Lemma decimal_chars (z : Z) :
  forallb (fun c => is_digit c || (c =? 45)%N) (decimal z) = true.
Proof.
  assert (H : forall d, forallb (fun c => is_digit c || (c =? 45)%N)
                          (lit (NilZero.string_of_uint d)) = true).
  { intros d. unfold NilZero.string_of_uint.
    pose proof (uint_digits d) as Hd. rewrite forallb_forall in Hd.
    destruct d; try reflexivity; apply forallb_forall; intros c Hc;
      now rewrite (Hd c Hc). }
  unfold decimal, NilZero.string_of_int.
  destruct (Z.to_int z) as [d|d]; [apply H|].
  change (lit (String "-" (NilZero.string_of_uint d)))
    with (45%N :: lit (NilZero.string_of_uint d)).
  cbn [forallb]. now rewrite H.
Qed.





































(** *** Choice lists *)

Lemma for_each_ext {A B} (f g : A -> res B) (l : list A) :
  (forall x, In x l -> f x = g x) -> for_each f l = for_each g l.
Proof.
  induction l as [|x l IH]; intros H; simpl; [reflexivity|].
  rewrite (H x (or_introl eq_refl)), IH; [reflexivity|].
  intros y Hy. apply H. now right.
Qed.

Lemma item_text_dict (c : pyval) :
  is_dict c = true -> item_text c = choice_text_spec c.
Proof.
  destruct c as [| | | | |entries| | |]; try discriminate. intros _.
  unfold item_text, choice_text_spec, field.
  destruct (dict_get entries (lit "message")); [reflexivity|].
  now destruct (dict_get entries (lit "text")).
Qed.

(** Texts the rule gives without an exception are the texts of any loop
    body that agrees with the rule wherever the rule gives a text. *)
Lemma for_each_ok_ext {A B} (f g : A -> res B) (l : list A) (ys : list B) :
  (forall x y, In x l -> g x = Ok y -> f x = Ok y) ->
  for_each g l = Ok ys -> for_each f l = Ok ys.
Proof.
  revert ys. induction l as [|x l IH]; intros ys H Hg; simpl in *; [exact Hg|].
  destruct (g x) as [y|] eqn:Ex; [|discriminate Hg].
  rewrite (H x y (or_introl eq_refl) Ex). simpl in *.
  destruct (for_each g l) as [zs|] eqn:El; [|discriminate Hg].
  rewrite (IH zs); [exact Hg| |reflexivity].
  intros x' y' Hin. apply H. now right.
Qed.

Lemma item_text_rule_kept (items : list (pykey * pyval)) (c : pyval) (s : pystr) :
  rule_kept (VDict items) c = true ->
  choice_text_spec c = Ok s -> item_text c = Ok s.
Proof.
  destruct c as [| | | | |entries| | |attrs dump repr]; intros Hk Hs;
    try exact Hs.
  - now rewrite item_text_dict.
  - cbn [rule_kept] in Hk. revert Hs.
    unfold item_text, choice_text_spec, field, hasattr. cbn [getattr].
    destruct (attr_get attrs "message") as [m|[]] eqn:Em; cbn [hasattr_of bind];
      try (intros Hs; exact Hs).
    destruct (attr_get attrs "text") as [t|[]] eqn:Et; cbn [hasattr_of bind];
      try (intros Hs; exact Hs); try discriminate.
    destruct (attr_get attrs "content") as [?|[]] eqn:Ec; try discriminate Hk.
    intros Hs. cbn [_extract_text]. rewrite !read_then_spec, Ec, Et.
    cbn [hasattr_of bind try_except]. now rewrite Hs.
Qed.

Lemma choice_text_rule_kept attrs dump repr (c : pyval) :
  rule_kept (VObj attrs dump repr) c = true ->
  choice_text c = choice_text_spec c.
Proof.
  destruct c as [| | | | |entries| | |]; intros Hk; try reflexivity.
  cbn [rule_kept] in Hk. unfold choice_text, choice_text_spec, field.
  destruct (dict_get entries (lit "message")); [discriminate Hk|].
  now destruct (dict_get entries (lit "text")).
Qed.

(** C7, as stated, fails, in two ways.  In a dict's "choices" an item that
    is not a dict is asked for its [message] attribute only and otherwise
    recursed on, and the recursion reads [content] before [text]: for
    {"choices": [o]} with o.text = "t" and o.content = "c" the rule gives
    "t" and the code gives "c".  In an object's [choices] a dict is asked
    for attributes and never for its keys: for choices
    [{"text": "a"}, {"text": "b"}] the rule gives "a\nb" and the code gives
    the two dicts serialised. *)
Lemma choice_rule_departures :
  let o := plain_object [("text"%string, Ok (VStr (lit "t")));
                         ("content"%string, Ok (VStr (lit "c")))] in
  let d := VDict [(KStr (lit "choices"), VList [o])] in
  let a := VDict [(KStr (lit "text"), VStr (lit "a"))] in
  let b := VDict [(KStr (lit "text"), VStr (lit "b"))] in
  let r := plain_object [("choices"%string, Ok (VList [a; b]))] in
  (choice_list d = Some [o] /\
   for_each choice_text_spec [o] = Ok [lit "t"] /\
   normalize_result d = Ok (lit "c") /\
   normalize_result d
     <> Ok (strip_markdown_code_fences (join_nonempty [lit "t"]))) /\
  (choice_list r = Some [a; b] /\
   for_each choice_text_spec [a; b] = Ok [lit "a"; lit "b"] /\
   normalize_result r
   = Ok (json_dumps [(lit "text", lit "a")] ++ [nl]
         ++ json_dumps [(lit "text", lit "b")]) /\
   normalize_result r
     <> Ok (strip_markdown_code_fences (join_nonempty [lit "a"; lit "b"]))).
Proof. repeat split; discriminate. Qed.

(** C7, amended: for every choice-list input whose choices are each
    extracted by the rule without an exception, and none of which is of the
    two kinds above, every choice gives its message field, else its text
    field, else its own extraction, and the non-empty texts are joined with
    a newline before the fence stripper runs.  A field is a key of a dict
    choice and an attribute of any other. *)
Theorem choice_list_follows_rule (result : pyval) (cs : list pyval)
  (texts : list pystr) :
  choice_list result = Some cs ->
  forallb (rule_kept result) cs = true ->
  for_each choice_text_spec cs = Ok texts ->
  normalize_result result
  = Ok (strip_markdown_code_fences (join_nonempty texts)).
Proof.
  intros Hcs Hkept Htexts. rewrite forallb_forall in Hkept.
  unfold normalize_result.
  destruct result as [| | | | |items| | |attrs dump repr]; try discriminate.
  - cbn [choice_list] in Hcs. unfold extract_output.
    cbn [hasattr getattr hasattr_of bind].
    destruct (dict_get items (lit "choices")) as [choices|]; [|discriminate].
    rewrite Hcs, (for_each_ok_ext item_text choice_text_spec cs texts);
      [reflexivity| |exact Htexts].
    intros c s Hc. apply (item_text_rule_kept items), (Hkept c Hc).
  - cbn [choice_list] in Hcs.
    destruct (attr_get attrs "content") as [?|[]] eqn:E1; try discriminate.
    destruct (attr_get attrs "choices") as [choices|] eqn:E2; [|discriminate].
    unfold extract_output, hasattr. cbn [getattr]. rewrite E1, E2.
    cbn [hasattr_of bind].
    rewrite Hcs, (for_each_ext choice_text choice_text_spec), Htexts; [reflexivity|].
    intros c Hc. apply (choice_text_rule_kept attrs dump repr), (Hkept c Hc).
Qed.

Lemma choice_list_follows_rule_witness :
  let a := plain_object [("text"%string, Ok (VStr (lit "a")))] in
  let b := plain_object [("text"%string, Ok (VStr (lit "b")));
                         ("message"%string, Ok (plain_object
                            [("content"%string, Ok (VStr (lit "m")))]))] in
  let z := VDict [(KStr (lit "content"), VStr (lit "z"))] in
  let o := plain_object [("choices"%string, Ok (VList [a; b; z]))] in
  let d := VDict [(KStr (lit "choices"),
                   VList [VDict [(KStr (lit "text"), VStr (lit "a"))];
                          b; VStr (lit "y"); a])] in
  normalize_result o = Ok (lit "a" ++ [nl] ++ lit "m" ++ [nl] ++ lit "z") /\
  normalize_result d
  = Ok (lit "a" ++ [nl] ++ lit "m" ++ [nl] ++ lit "y" ++ [nl] ++ lit "a").
Proof.
  cbv zeta. split.
  - apply choice_list_follows_rule
      with (cs := [plain_object [("text"%string, Ok (VStr (lit "a")))];
                   plain_object [("text"%string, Ok (VStr (lit "b")));
                                 ("message"%string, Ok (plain_object
                                    [("content"%string, Ok (VStr (lit "m")))]))];
                   VDict [(KStr (lit "content"), VStr (lit "z"))]])
           (texts := [lit "a"; lit "m"; lit "z"]); reflexivity.
  - apply choice_list_follows_rule
      with (cs := [VDict [(KStr (lit "text"), VStr (lit "a"))];
                   plain_object [("text"%string, Ok (VStr (lit "b")));
                                 ("message"%string, Ok (plain_object
                                    [("content"%string, Ok (VStr (lit "m")))]))];
                   VStr (lit "y");
                   plain_object [("text"%string, Ok (VStr (lit "a")))]])
           (texts := [lit "a"; lit "m"; lit "y"; lit "a"]); reflexivity.
Defined.

(** ** The cases of the repository's tests *)

Example test_strips_uppercase_language_fence :
  strip_markdown_code_fences (fence ++ lit "JSON" ++ [nl] ++ lit "{}" ++ [nl] ++ fence)
  = lit "{}".
Proof. reflexivity. Qed.

Example test_fence_with_hyphen_in_language :
  strip_markdown_code_fences
    (fence ++ lit "shell-session" ++ [nl] ++ lit "ls -la" ++ [nl] ++ fence)
  = lit "ls -la".
Proof. reflexivity. Qed.

Example test_strips_fence_with_leading_whitespace :
  strip_markdown_code_fences
    (lit "  " ++ fence ++ lit "json" ++ [nl] ++ lit "{}" ++ [nl] ++ fence)
  = lit "{}".
Proof. reflexivity. Qed.

Example test_multiline_content_preserved :
  strip_markdown_code_fences
    (fence ++ lit "json" ++ [nl] ++ lit "line1" ++ [nl] ++ lit "line2" ++ [nl]
       ++ lit "line3" ++ [nl] ++ fence)
  = lit "line1" ++ [nl] ++ lit "line2" ++ [nl] ++ lit "line3".
Proof. reflexivity. Qed.

Example test_empty_string_unchanged : strip_markdown_code_fences [] = [].
Proof. reflexivity. Qed.

Example test_none_returns_empty_string : normalize_result VNone = Ok [].
Proof. reflexivity. Qed.

Example test_integer_converted : normalize_result (VInt 42) = Ok (lit "42").
Proof. reflexivity. Qed.

Example test_negative_integer : normalize_result (VInt (-7)) = Ok (lit "-7").
Proof. reflexivity. Qed.

Example test_bool_converted : normalize_result (VBool true) = Ok (lit "True").
Proof. reflexivity. Qed.

Example test_object_with_nested_content :
  normalize_result
    (plain_object [("content"%string,
                    Ok (plain_object [("content"%string, Ok (VStr (lit "deep value")))]))])
  = Ok (lit "deep value").
Proof. reflexivity. Qed.

Example test_object_with_text_attr :
  normalize_result (plain_object [("text"%string, Ok (VStr (lit "text value")))])
  = Ok (lit "text value").
Proof. reflexivity. Qed.

Example test_dict_with_message_key :
  normalize_result (VDict [(KStr (lit "message"), VStr (lit "msg value"))])
  = Ok (lit "msg value").
Proof. reflexivity. Qed.

Example test_dict_with_choices_message_key :
  normalize_result
    (VDict [(KStr (lit "choices"),
             VList [VDict [(KStr (lit "message"),
                            VDict [(KStr (lit "content"), VStr (lit "msg"))])]])])
  = Ok (lit "msg").
Proof. reflexivity. Qed.

Example test_plain_dict_serialized :
  normalize_result (VDict [(KStr (lit "key"), VStr (lit "value"))])
  = Ok (lit "{" ++ [34%N] ++ lit "key" ++ [34%N] ++ lit ": "
          ++ [34%N] ++ lit "value" ++ [34%N] ++ lit "}").
Proof. reflexivity. Qed.

Example test_object_with_generations :
  normalize_result
    (plain_object
       [("generations"%string,
         Ok (VList [VList [plain_object [("text"%string, Ok (VStr (lit "generated text")))]];
                    plain_object [("text"%string, Ok (VStr (lit "flat gen")))]]))])
  = Ok (lit "generated text" ++ [nl] ++ lit "flat gen").
Proof. reflexivity. Qed.

Example test_empty_parts_suppressed :
  normalize_result (VList [VStr []; VStr (lit "x"); VStr []]) = Ok (lit "x").
Proof. reflexivity. Qed.

Example test_strips_markdown_fence_from_result :
  normalize_result
    (plain_object [("content"%string,
                    Ok (VStr (fence ++ lit "json" ++ [nl] ++ lit "{}" ++ [nl] ++ fence)))])
  = Ok (lit "{}").
Proof. reflexivity. Qed.

(** A failure while reading through [content] is absorbed: the text is
    empty. *)
Example content_failure_absorbed :
  normalize_result
    (VList [plain_object [("content"%string,
              Ok (VObj [] (Some (Raise TypeError, Raise TypeError)) (Ok [])))]])
  = Ok [].
Proof. reflexivity. Qed.

(** * Further properties of the fence stripper *)

Lemma lstrip_incl (s : pystr) (c : char) : In c (lstrip s) -> In c s.
Proof.
  induction s as [|d s IH]; simpl; [easy|].
  destruct (isspace d); [intros H; right; now apply IH | easy].
Qed.

Lemma strip_incl (s : pystr) (c : char) : In c (strip s) -> In c s.
Proof.
  unfold strip, rstrip. intros H. apply in_rev, lstrip_incl, in_rev in H.
  now apply lstrip_incl.
Qed.

Lemma fenced_not_nil (t tag body : pystr) : fenced t tag body -> In backtick t.
Proof. intros (-> & _). now left. Qed.

Lemma no_backtick_not_fenced (text tag body : pystr) :
  forallb (fun c => negb (c =? backtick)%N) text = true ->
  ~ fenced (strip text) tag body.
Proof.
  intros H Hf. apply fenced_not_nil, strip_incl in Hf.
  rewrite forallb_forall in H. specialize (H _ Hf).
  now rewrite N.eqb_refl in H.
Qed.

(** X1: a text with no backtick in it comes back unchanged. *)
Theorem strip_fences_without_backtick (text : pystr) :
  forallb (fun c => negb (c =? backtick)%N) text = true ->
  strip_markdown_code_fences text = text.
Proof.
  intros H. apply strip_fences_unfenced. intros tag body.
  now apply no_backtick_not_fenced.
Qed.

Lemma strip_fences_without_backtick_witness :
  forallb (fun c => negb (c =? backtick)%N) (lit "  plain {json: 1} text ") = true /\
  strip_markdown_code_fences (lit "  plain {json: 1} text ")
  = lit "  plain {json: 1} text ".
Proof.
  split; [reflexivity | apply strip_fences_without_backtick; reflexivity].
Defined.

(** X2: the stripper either returns its input or a text at least seven
    characters shorter (two markers and a line break are gone). *)
Theorem strip_fences_unchanged_or_shorter (t : pystr) :
  strip_markdown_code_fences t = t \/
  length (strip_markdown_code_fences t) + 7 <= length t.
Proof.
  destruct (strip_fences_cases t) as [H|(tag & body & Hf & H)]; [now left|right].
  rewrite H. pose proof (strip_length body). pose proof (strip_length t) as Ht.
  rewrite (fenced_length _ _ _ Hf) in Ht. lia.
Qed.

(** X3: the text changes exactly when its trimmed form is a whole fence:
    opening marker, optional language tag, line break, non-empty body,
    closing marker. *)
Theorem strip_fences_changes_iff_fenced (t : pystr) :
  strip_markdown_code_fences t <> t <->
  exists tag body, fenced (strip t) tag body.
Proof.
  split.
  - intros Hne. destruct (strip_fences_cases t) as [H|(tag & body & Hf & _)];
      [contradiction|now exists tag, body].
  - intros (tag & body & Hf) Heq.
    pose proof (strip_fences_fenced _ _ _ Hf) as H. rewrite Heq in H.
    pose proof (strip_length body). pose proof (strip_length t) as Ht.
    rewrite (fenced_length _ _ _ Hf) in Ht.
    apply (f_equal (@length _)) in H. lia.
Qed.

Lemma strip_fences_changes_iff_fenced_witness :
  let t := lit " " ++ fence ++ lit "py" ++ [nl] ++ lit "x" ++ fence in
  strip_markdown_code_fences t <> t.
Proof.
  cbv zeta. apply strip_fences_changes_iff_fenced.
  exists (lit "py"), (lit "x"). repeat split. discriminate.
Defined.

Lemma forallb_rev {A} (f : A -> bool) (l : list A) :
  forallb f (rev l) = forallb f l.
Proof.
  induction l as [|x l IH]; simpl; [reflexivity|].
  rewrite forallb_app, IH. simpl. rewrite andb_true_r. apply andb_comm.
Qed.

Lemma strip_surrounded (ws1 ws2 x : pystr) :
  forallb isspace ws1 = true -> forallb isspace ws2 = true -> trimmed x ->
  strip (ws1 ++ x ++ ws2) = x.
Proof.
  intros H1 H2 [Hx Hrx]. unfold strip, rstrip.
  rewrite lstrip_app, H1.
  destruct x as [|c x].
  - simpl. now rewrite (lstrip_all_space _ H2).
  - assert (Hc : lstrip ((c :: x) ++ ws2) = (c :: x) ++ ws2).
    { simpl in *. destruct (isspace c); [|reflexivity].
      pose proof (lstrip_length x) as Hl. rewrite Hx in Hl. simpl in Hl. lia. }
    rewrite Hc, rev_app_distr, lstrip_app, forallb_rev, H2, Hrx.
    apply rev_involutive.
Qed.

Lemma fenced_trimmed (tag body : pystr) :
  trimmed (fence ++ tag ++ nl :: body ++ fence).
Proof.
  change (fence ++ tag ++ nl :: body ++ fence)
    with (backtick :: (backtick :: backtick :: tag ++ nl :: body ++ fence)).
  replace (backtick :: backtick :: tag ++ nl :: body ++ fence)
    with ((backtick :: backtick :: tag ++ nl :: body ++ [backtick; backtick]) ++ [backtick]).
  - now apply trimmed_ends.
  - cbn [app]. rewrite <- app_assoc. cbn [app]. do 3 f_equal.
    rewrite <- app_assoc. reflexivity.
Qed.

(** X4: whatever the language tag and whatever whitespace surrounds the
    fence, a fenced text gives its body, trimmed. *)
Theorem strip_fences_any_tag (ws1 ws2 tag body : pystr) :
  forallb isspace ws1 = true -> forallb isspace ws2 = true ->
  lang_tag tag = true -> body <> [] ->
  strip_markdown_code_fences (ws1 ++ (fence ++ tag ++ nl :: body ++ fence) ++ ws2)
  = strip body.
Proof.
  intros H1 H2 Htag Hbody. apply strip_fences_fenced with (tag := tag).
  rewrite (strip_surrounded _ _ _ H1 H2 (fenced_trimmed tag body)).
  now repeat split.
Qed.

Lemma strip_fences_any_tag_witness :
  let ws1 := [nl; 32%N] in
  let ws2 := [9%N; nl] in
  let tag := lit "shell-session" in
  let body := lit "ls -la" ++ [nl] in
  (forallb isspace ws1 = true /\ forallb isspace ws2 = true /\
   lang_tag tag = true /\ body <> []) /\
  strip_markdown_code_fences (ws1 ++ (fence ++ tag ++ nl :: body ++ fence) ++ ws2)
  = lit "ls -la".
Proof.
  cbv zeta. split; [repeat split; discriminate|].
  change (lit "ls -la") with (strip (lit "ls -la" ++ [nl])).
  apply strip_fences_any_tag; try reflexivity. discriminate.
Defined.

(** When the second pattern matches, the first one has matched with the
    same group. *)
Lemma no_lang_match (text group1 : pystr) :
  Re.re_match_group1 Re.pattern_no_lang text = Some group1 ->
  Re.re_match_group1 Re.pattern text = Some group1.
Proof.
  unfold Re.re_match_group1.
  destruct (Re.run Re.pattern_no_lang (0, 0) 0 text) as [[i j]|] eqn:E;
    [|discriminate].
  now rewrite (no_lang_run _ _ E).
Qed.

(** X5: the second pattern never decides the result: the stripper is the
    first pattern alone. *)
Theorem strip_fences_fallback_pattern_redundant (text : pystr) :
  strip_markdown_code_fences text
  = if negb (truthy text) then text
    else if negb (startswith (strip text) fence) then text
    else match Re.re_match_group1 Re.pattern (strip text) with
         | Some group1 => strip group1
         | None => text
         end.
Proof.
  unfold strip_markdown_code_fences.
  destruct (negb (truthy text)); [reflexivity|].
  destruct (negb (startswith (strip text) fence)); [reflexivity|].
  destruct (Re.re_match_group1 Re.pattern (strip text)) eqn:E; [reflexivity|].
  destruct (Re.re_match_group1 Re.pattern_no_lang (strip text)) eqn:E2;
    [|reflexivity].
  apply no_lang_match in E2. congruence.
Qed.

(** X6: whenever the stripper changes the text, what it returns has no
    whitespace at either end. *)
Theorem strip_fences_result_trimmed (t : pystr) :
  strip_markdown_code_fences t = t \/ trimmed (strip_markdown_code_fences t).
Proof.
  destruct (strip_fences_cases t) as [H|(tag & body & _ & H)]; [now left|right].
  rewrite H. apply strip_trimmed.
Qed.

(** * Further properties of the extractor *)

(** ** Joining *)

Lemma join_nonempty_cons (p : pystr) (ps : list pystr) :
  join_nonempty (p :: ps)
  = if truthy p
    then if truthy (join_nonempty ps) then p ++ nl :: join_nonempty ps else p
    else join_nonempty ps.
Proof.
  unfold join_nonempty. cbn [filter]. destruct (truthy p) eqn:Hp; [|reflexivity].
  destruct (filter truthy ps) as [|q qs] eqn:E; [reflexivity|].
  assert (Hq : truthy q = true).
  { assert (Hin : In q (filter truthy ps)) by (rewrite E; now left).
    now apply filter_In in Hin. }
  cbn [join]. destruct q as [|c q]; [discriminate|].
  now destruct qs.
Qed.

Lemma join_nonempty_app (a b : list pystr) :
  join_nonempty (a ++ b)
  = if truthy (join_nonempty a)
    then if truthy (join_nonempty b)
         then join_nonempty a ++ nl :: join_nonempty b
         else join_nonempty a
    else join_nonempty b.
Proof.
  induction a as [|p a IH]; [reflexivity|].
  cbn [app]. rewrite !join_nonempty_cons, IH.
  destruct (truthy p) eqn:Hp; [|reflexivity].
  destruct (truthy (join_nonempty a)) eqn:Ha.
  - assert (Hpa : truthy (p ++ nl :: join_nonempty a) = true) by now destruct p.
    rewrite Hpa. destruct (truthy (join_nonempty b)) eqn:Hb.
    + assert (H : truthy (join_nonempty a ++ nl :: join_nonempty b) = true)
        by now destruct (join_nonempty a).
      rewrite H. rewrite <- app_assoc. reflexivity.
    + now rewrite Ha.
  - rewrite Hp. now destruct (truthy (join_nonempty b)).
Qed.

(** X7: the joined text is empty exactly when every part is empty; empty
    parts leave no blank line. *)
Theorem join_nonempty_empty_iff (parts : list pystr) :
  join_nonempty parts = [] <-> forall p, In p parts -> p = [].
Proof.
  induction parts as [|p ps IH]; [easy|].
  rewrite join_nonempty_cons. destruct p as [|c p]; cbn [truthy].
  - rewrite IH. split; intros H q; [intros [<-|Hq]; auto|intros Hq; apply H; now right].
  - split.
    + now destruct (truthy (join_nonempty ps)).
    + intros H. discriminate (H (c :: p) (or_introl eq_refl)).
Qed.

Lemma join_nonempty_empty_iff_witness :
  join_nonempty [[]; []; []] = [].
Proof. apply join_nonempty_empty_iff. intros p [<-|[<-|[<-|[]]]]; reflexivity. Defined.

Lemma join_nonempty_flatten (groups : list (list pystr)) :
  join_nonempty (map join_nonempty groups) = join_nonempty (concat groups).
Proof.
  induction groups as [|g groups IH]; [reflexivity|].
  cbn [map concat]. rewrite join_nonempty_cons, join_nonempty_app, IH.
  reflexivity.
Qed.

Lemma for_each_app {A B} (f : A -> res B) (a b : list A) :
  for_each f (a ++ b)
  = (xs <- for_each f a ;; ys <- for_each f b ;; Ok (xs ++ ys)).
Proof.
  induction a as [|x a IH]; simpl.
  - now destruct (for_each f b).
  - destruct (f x); [|reflexivity]. simpl. rewrite IH.
    destruct (for_each f a); [|reflexivity]. simpl.
    now destruct (for_each f b).
Qed.

Lemma for_each_concat {A B} (f : A -> res B) (groups : list (list A)) :
  for_each f (concat groups)
  = (yss <- for_each (for_each f) groups ;; Ok (concat yss)).
Proof.
  induction groups as [|g groups IH]; [reflexivity|].
  cbn [concat for_each]. rewrite for_each_app, IH.
  destruct (for_each f g); [|reflexivity]. simpl.
  now destruct (for_each (for_each f) groups).
Qed.

Lemma for_each_map {A B C} (f : B -> res C) (g : A -> B) (l : list A) :
  for_each f (map g l) = for_each (fun x => f (g x)) l.
Proof. induction l as [|x l IH]; simpl; [reflexivity|]. now rewrite IH. Qed.

Lemma for_each_then {A B C} (f : A -> res B) (h : B -> C) (l : list A) :
  for_each (fun x => y <- f x ;; Ok (h y)) l
  = (ys <- for_each f l ;; Ok (map h ys)).
Proof.
  induction l as [|x l IH]; simpl; [reflexivity|]. rewrite IH.
  destruct (f x); [|reflexivity]. simpl. now destruct (for_each f l).
Qed.

(** X8: a list of lists extracts like the one list of all their elements:
    nesting sequences changes nothing, exceptions included. *)
Theorem extract_text_nested_lists (xss : list (list pyval)) :
  _extract_text (VList (map VList xss)) = _extract_text (VList (concat xss)).
Proof.
  cbn [_extract_text]. rewrite for_each_map, for_each_concat.
  change (fun x => _extract_text (VList x))
    with (fun x => parts <- for_each _extract_text x ;; Ok (join_nonempty parts)).
  rewrite for_each_then.
  destruct (for_each (for_each _extract_text) xss); [|reflexivity].
  simpl. now rewrite join_nonempty_flatten.
Qed.

(** ** Generation batches *)

(** X9: once the three attribute reads of the dispatch have gone through
    ([content] and [choices] absent, [generations] readable), nothing in a
    generations value makes [normalize_result] raise: the loop of lines
    107-127 absorbs every failure, and a failure leaves the empty string. *)
Theorem generations_never_raise attrs model_dump repr (gens : pyval) :
  attr_get attrs "content" = Raise AttributeError ->
  attr_get attrs "choices" = Raise AttributeError ->
  attr_get attrs "generations" = Ok gens ->
  exists s,
    normalize_result (VObj attrs model_dump repr) = Ok s /\
    (forall e, (gs <- iterate gens ;; for_each generation_texts gs) = Raise e ->
               s = []).
Proof.
  intros Hc Hch Hg. unfold normalize_result, extract_output, hasattr.
  cbn [getattr]. rewrite Hc, Hch, Hg. cbn [hasattr_of bind].
  destruct (iterate gens) as [gs|e]; cbn [bind try_except].
  - destruct (for_each generation_texts gs) as [tss|e]; cbn [bind try_except];
      eexists; (split; [reflexivity|]); intros e' H; [discriminate H|reflexivity].
  - eexists. split; reflexivity.
Qed.

Lemma generations_never_raise_witness :
  let attrs := [("generations"%string, Ok (VInt 3))] in
  exists s,
    normalize_result (VObj attrs None (Raise RuntimeError)) = Ok s /\
    (forall e, (gs <- iterate (VInt 3) ;; for_each generation_texts gs) = Raise e ->
               s = []).
Proof.
  cbv zeta. apply generations_never_raise; reflexivity.
Defined.

Lemma generation_texts_single (g : pyval) :
  is_sequence g = None ->
  generation_texts g = (t <- generation_text g ;; Ok [t]).
Proof. unfold generation_texts. now intros ->. Qed.

Lemma for_each_singletons {A B} (f : A -> res B) (l : list A) :
  for_each (fun x => t <- f x ;; Ok [t]) l
  = (ys <- for_each f l ;; Ok (map (fun y => [y]) ys)).
Proof. apply for_each_then. Qed.

Lemma concat_singletons {A} (l : list A) : concat (map (fun y => [y]) l) = l.
Proof. induction l as [|x l IH]; simpl; [reflexivity|]. now rewrite IH. Qed.

(** The texts a flat list of generations appends. *)
Lemma generation_texts_flat (gs : list pyval) :
  (forall g, In g gs -> is_sequence g = None) ->
  (tss <- for_each generation_texts gs ;; Ok (concat tss))
  = for_each generation_text gs.
Proof.
  intros H.
  rewrite (for_each_ext generation_texts (fun g => t <- generation_text g ;; Ok [t]));
    [|intros g Hg; apply generation_texts_single, H, Hg].
  rewrite for_each_singletons.
  destruct (for_each generation_text gs); [|reflexivity].
  simpl. now rewrite concat_singletons.
Qed.

(** The texts a list of batches appends. *)
Lemma generation_texts_batches (gss : list (list pyval)) :
  (tss <- for_each generation_texts (map VList gss) ;; Ok (concat tss))
  = for_each generation_text (concat gss).
Proof.
  rewrite for_each_map, for_each_concat.
  change (fun x => generation_texts (VList x)) with (for_each generation_text).
  reflexivity.
Qed.

(** X10: one level of batching does not matter: generations given as a
    list of batches extract like the flat list of their elements (elements
    that are not themselves lists or tuples). *)
Theorem generations_batches_flatten (gss : list (list pyval)) :
  (forall g, In g (concat gss) -> is_sequence g = None) ->
  normalize_result (plain_object [("generations"%string, Ok (VList (map VList gss)))])
  = normalize_result (plain_object [("generations"%string, Ok (VList (concat gss)))]).
Proof.
  intros H. unfold normalize_result, extract_output, plain_object, hasattr.
  cbn [getattr attr_get String.eqb Ascii.eqb Bool.eqb hasattr_of bind iterate].
  pose proof (generation_texts_batches gss) as Hb.
  pose proof (generation_texts_flat (concat gss) H) as Hf.
  destruct (for_each generation_texts (map VList gss)) as [tss|e];
    destruct (for_each generation_texts (concat gss)) as [tss'|e'];
    cbn [bind try_except] in *; rewrite <- Hf in Hb; try discriminate Hb;
    [injection Hb as ->|]; reflexivity.
Qed.

Lemma generations_batches_flatten_witness :
  let a := plain_object [("text"%string, Ok (VStr (lit "a")))] in
  let b := plain_object [("content"%string, Ok (VStr (lit "b")))] in
  let c := plain_object [("text"%string, Ok (VStr (lit "c")));
                         ("content"%string, Ok (VStr (lit "ignored")))] in
  normalize_result (plain_object [("generations"%string,
                                   Ok (VList (map VList [[a; b]; []; [c]])))])
  = normalize_result (plain_object [("generations"%string,
                                     Ok (VList (concat [[a; b]; []; [c]])))]).
Proof.
  cbv zeta. apply generations_batches_flatten.
  intros g [<-|[<-|[<-|[]]]]; reflexivity.
Defined.

(** ** Scalars *)

(** X11: an integer gives what [str] gives for it, its decimal text, or
    the [ValueError] of [str] when it has more than 4300 digits; a boolean
    gives True or False.  The fence stripper has nothing to do on these
    texts. *)
Theorem normalize_result_int_bool :
  (forall z, normalize_result (VInt z)
             = if (digits z <=? int_max_str_digits)%Z then Ok (decimal z)
               else Raise ValueError) /\
  (forall b, normalize_result (VBool b) = Ok (str_bool b)).
Proof.
  split.
  - intros z. unfold normalize_result. cbn [extract_output hasattr getattr
      hasattr_of bind _extract_text]. unfold str_int.
    destruct (Z.ltb_spec int_max_str_digits (digits z)) as [Hz|Hz];
      destruct (Z.leb_spec (digits z) int_max_str_digits); try lia;
      [reflexivity|].
    cbn [bind]. f_equal.
    apply strip_fences_unfenced. intros tag body. apply no_backtick_not_fenced.
    pose proof (decimal_chars z) as Hd. rewrite forallb_forall in Hd.
    apply forallb_forall. intros c Hc. specialize (Hd c Hc).
    destruct (N.eqb_spec c backtick) as [->|]; [discriminate Hd|reflexivity].
  - now intros [|].
Qed.

(** ** Failures below an attribute *)

(** X12: inside the recursion an object whose [content] can be read, or
    whose [content] is absent and whose [text] can be read, never raises:
    it gives the extraction of that attribute, or the empty string when
    that extraction fails (lines 34-43). *)
Theorem extract_text_attribute_absorbs attrs model_dump repr (v : pyval) :
  getattr (VObj attrs model_dump repr) "content" = Ok v \/
  (getattr (VObj attrs model_dump repr) "content" = Raise AttributeError /\
   getattr (VObj attrs model_dump repr) "text" = Ok v) ->
  _extract_text (VObj attrs model_dump repr)
  = Ok (match _extract_text v with Ok s => s | Raise _ => [] end).
Proof.
  cbn [getattr _extract_text]. intros [H|[H1 H2]]; rewrite !read_then_spec.
  - rewrite H. cbn. now destruct (_extract_text v).
  - rewrite H1, H2. cbn. now destruct (_extract_text v).
Qed.

Lemma extract_text_attribute_absorbs_witness :
  let broken := VObj [] (Some (Raise TypeError, Raise TypeError)) (Ok []) in
  _extract_text (VObj [("content"%string, Ok (VList [VStr (lit "a"); broken]))]
                      None (Ok []))
  = Ok (match _extract_text (VList [VStr (lit "a"); broken]) with
        | Ok s => s
        | Raise _ => []
        end).
Proof.
  cbv zeta. apply extract_text_attribute_absorbs. left. reflexivity.
Defined.

(** ** Values without objects *)

Lemma normalize_result_plain_witness :
  let v := VDict [(KStr (lit "choices"),
                   VTuple [VDict [(KInt 1, VList [VNone; VFloat (lit "0.5");
                                                  VInt (-12)])];
                           VBool false])] in
  (plain v = true /\ depth v <= nesting_bound) /\
  exists s, normalize_result v = Ok s.
Proof.
  cbv zeta.
  split; [split; [reflexivity | apply Nat.leb_le; reflexivity]|].
  apply normalize_result_plain; [reflexivity | apply Nat.leb_le; reflexivity].
Defined.

(** ** The text of a generic dict *)

Lemma hex_digit_printable (n : N) : (32 <=? hex_digit n)%N = true.
Proof. unfold hex_digit. destruct (n <? 10)%N; apply N.leb_le; lia. Qed.

Lemma json_escape_printable (c : char) :
  forallb (fun c => (32 <=? c)%N) (json_escape c) = true.
Proof.
  unfold json_escape.
  repeat match goal with
         | |- context [if ?b then _ else _] => destruct b eqn:?; [reflexivity|]
         end.
  destruct (c <? 32)%N eqn:E.
  - rewrite forallb_app. cbn [forallb]. now rewrite !hex_digit_printable.
  - apply N.ltb_ge in E. cbn. rewrite andb_true_r. now apply N.leb_le.
Qed.

Lemma json_string_printable (s : pystr) :
  forallb (fun c => (32 <=? c)%N) (json_string s) = true.
Proof.
  unfold json_string. rewrite !forallb_app. cbn.
  rewrite andb_true_r. induction s as [|c s IH]; [reflexivity|].
  cbn [flat_map]. now rewrite forallb_app, json_escape_printable.
Qed.

Lemma join_forallb (P : char -> bool) (sep : pystr) (parts : list pystr) :
  forallb P sep = true -> forallb (forallb P) parts = true ->
  forallb P (join sep parts) = true.
Proof.
  intros Hsep. induction parts as [|p ps IH]; [reflexivity|].
  cbn [forallb join]. intros H. apply andb_prop in H as [Hp Hps].
  destruct ps as [|q ps]; [exact Hp|].
  rewrite !forallb_app, Hp, Hsep. now apply IH.
Qed.

Lemma json_dumps_printable (d : list (pystr * pystr)) :
  forallb (fun c => (32 <=? c)%N) (json_dumps d) = true.
Proof.
  unfold json_dumps. rewrite !forallb_app.
  rewrite join_forallb; [reflexivity|reflexivity|].
  induction d as [|[k v] d IH]; [reflexivity|].
  cbn [map forallb fst snd]. rewrite !forallb_app, !json_string_printable.
  exact IH.
Qed.

(** X13: the text extracted from a dict without a [content] key is one
    line: no control character (code point below 32) is in it, whatever
    the keys and the values hold. *)
Theorem generic_dict_text_one_line (items : list (pykey * pyval)) (s : pystr) :
  dict_get items (lit "content") = None ->
  _extract_text (VDict items) = Ok s ->
  forallb (fun c => (32 <=? c)%N) s = true.
Proof.
  intros Hc. cbn [_extract_text]. rewrite dict_get_map, Hc. cbn [option_map].
  destruct (fold_left _ items (Ok [])) as [d|e]; cbn [bind]; [|discriminate].
  intros [= <-]. apply json_dumps_printable.
Qed.

Lemma generic_dict_text_one_line_witness :
  let items := [(KStr (lit "a"), VStr [10%N; 9%N; 1%N]);
                (KInt 2, VList [VStr (lit "x"); VStr (lit "y")])] in
  _extract_text (VDict items)
  = Ok (lit "{" ++ [34%N] ++ lit "a" ++ [34%N] ++ lit ": " ++ [34%N]
        ++ lit "\n\t\u0001" ++ [34%N] ++ lit ", " ++ [34%N] ++ lit "2" ++ [34%N]
        ++ lit ": " ++ [34%N] ++ lit "x\ny" ++ [34%N] ++ lit "}") /\
  forallb (fun c => (32 <=? c)%N)
    (lit "{" ++ [34%N] ++ lit "a" ++ [34%N] ++ lit ": " ++ [34%N]
     ++ lit "\n\t\u0001" ++ [34%N] ++ lit ", " ++ [34%N] ++ lit "2" ++ [34%N]
     ++ lit ": " ++ [34%N] ++ lit "x\ny" ++ [34%N] ++ lit "}") = true.
Proof.
  cbv zeta. split; [reflexivity|].
  apply (generic_dict_text_one_line
           [(KStr (lit "a"), VStr [10%N; 9%N; 1%N]);
            (KInt 2, VList [VStr (lit "x"); VStr (lit "y")])]);
    reflexivity.
Defined.

(** * The filename sanitiser *)

(** ** Replacing runs *)

Lemma sub_from_forallb (P cls : char -> bool) (repl : pystr) :
  forallb P repl = true ->
  forall s inside,
    forallb (fun c => cls c || P c) s = true ->
    forallb P (sub_from cls repl inside s) = true.
Proof.
  intros Hr. induction s as [|c s IH]; intros inside H; [reflexivity|].
  cbn [forallb] in H. apply andb_prop in H as [Hc Hs]. cbn [sub_from].
  destruct (cls c); cbn [orb] in Hc.
  - destruct inside; [now apply IH|]. rewrite forallb_app, Hr. now apply IH.
  - cbn [forallb]. rewrite Hc. now apply IH.
Qed.

(** Replacing the runs of a class by characters outside it leaves no
    character of the class. *)
Lemma sub_from_removes (cls : char -> bool) (repl : pystr) :
  forallb (fun c => negb (cls c)) repl = true ->
  forall s inside,
    forallb (fun c => negb (cls c)) (sub_from cls repl inside s) = true.
Proof.
  intros Hr s inside. apply sub_from_forallb; [exact Hr|].
  apply forallb_forall. intros c _. now destruct (cls c).
Qed.

Lemma sub_from_unchanged (cls : char -> bool) (repl s : pystr) :
  forallb (fun c => negb (cls c)) s = true ->
  sub_from cls repl false s = s.
Proof.
  induction s as [|c s IH]; [reflexivity|]. cbn [forallb sub_from].
  intros H. apply andb_prop in H as [Hc Hs].
  destruct (cls c); [discriminate|]. now rewrite IH.
Qed.

Lemma no_double_dash_cons (c d : char) (r : pystr) :
  no_double_dash (c :: d :: r)
  = negb (is_dash c && is_dash d) && no_double_dash (d :: r).
Proof. reflexivity. Qed.

Lemma sub_dash_no_double (s : pystr) :
  forall inside,
    no_double_dash (sub_from is_dash [dash] inside s) = true /\
    (inside = true -> starts_with_dash (sub_from is_dash [dash] inside s) = false).
Proof.
  induction s as [|c s IH]; intros inside; [now split|].
  cbn [sub_from]. destruct (is_dash c) eqn:Hc.
  - destruct inside.
    + apply IH.
    + destruct (IH true) as [H1 H2]. split; [|discriminate].
      cbn [app]. specialize (H2 eq_refl).
      destruct (sub_from is_dash [dash] true s) as [|d r]; [reflexivity|].
      rewrite no_double_dash_cons. cbn [starts_with_dash] in H2.
      rewrite H2, andb_false_r. exact H1.
  - destruct (IH false) as [H1 _]. split.
    + destruct (sub_from is_dash [dash] false s) as [|d r]; [reflexivity|].
      rewrite no_double_dash_cons, Hc. exact H1.
    + intros _. cbn [starts_with_dash]. exact Hc.
Qed.

Lemma sub_dash_unchanged (s : pystr) :
  no_double_dash s = true -> sub_from is_dash [dash] false s = s.
Proof.
  assert (H : forall s, no_double_dash s = true ->
                        sub_from is_dash [dash] false s = s /\
                        (starts_with_dash s = false ->
                         sub_from is_dash [dash] true s = s)).
  { clear s. induction s as [|c s IH]; intros Hs; [now split|].
    assert (Hs' : no_double_dash s = true).
    { destruct s; [reflexivity|]. rewrite no_double_dash_cons in Hs.
      now apply andb_prop in Hs as [_ Hs]. }
    destruct (IH Hs') as [IH1 IH2]. cbn [sub_from starts_with_dash].
    destruct (is_dash c) eqn:Hc.
    - split; [|discriminate]. cbn [app].
      assert (Hc' : c = dash) by now apply N.eqb_eq.
      rewrite Hc'. f_equal. apply IH2.
      destruct s as [|d s]; [reflexivity|]. rewrite no_double_dash_cons in Hs.
      cbn [starts_with_dash]. rewrite Hc in Hs. cbn [andb] in Hs.
      apply andb_prop in Hs as [Hd _]. now destruct (is_dash d).
    - split; [|intros _]; now rewrite IH1. }
  intros Hs. now apply H.
Qed.

(** ** Stripping a set of characters *)

Lemma lstrip_chars_suffix (P : char -> bool) (s : pystr) :
  exists l, s = l ++ lstrip_chars P s.
Proof.
  induction s as [|c s [l IH]]; [now exists []|]. cbn [lstrip_chars].
  destruct (P c); [|now exists []]. exists (c :: l). cbn [app]. now f_equal.
Qed.

Lemma lstrip_chars_head (P : char -> bool) (s : pystr) :
  match lstrip_chars P s with c :: _ => P c = false | [] => True end.
Proof.
  induction s as [|c s IH]; [exact I|]. cbn [lstrip_chars].
  destruct (P c) eqn:Hc; [exact IH|exact Hc].
Qed.

Lemma lstrip_chars_fixed (P : char -> bool) (s : pystr) :
  match s with c :: _ => P c = false | [] => True end ->
  lstrip_chars P s = s.
Proof. destruct s as [|c s]; [reflexivity|]. cbn. now intros ->. Qed.

Lemma lstrip_chars_keeps_last (P : char -> bool) (x : pystr) (c : char) :
  P c = false -> lstrip_chars P (x ++ [c]) = lstrip_chars P x ++ [c].
Proof.
  intros Hc. induction x as [|d x IH]; cbn; [now rewrite Hc|].
  now destruct (P d).
Qed.

Lemma strip_chars_infix (P : char -> bool) (s : pystr) :
  exists l r, s = l ++ strip_chars P s ++ r.
Proof.
  unfold strip_chars, rstrip_chars.
  destruct (lstrip_chars_suffix P s) as [l Hl].
  destruct (lstrip_chars_suffix P (rev (lstrip_chars P s))) as [r Hr].
  exists l, (rev r). rewrite <- rev_app_distr, <- Hr, rev_involutive. exact Hl.
Qed.

(** Both ends of a stripped text are outside the set. *)
Lemma strip_chars_ends (P : char -> bool) (s : pystr) :
  match strip_chars P s with c :: _ => P c = false | [] => True end /\
  match rev (strip_chars P s) with c :: _ => P c = false | [] => True end.
Proof.
  unfold strip_chars, rstrip_chars. rewrite rev_involutive. split.
  - pose proof (lstrip_chars_head P s) as H.
    destruct (lstrip_chars P s) as [|c r]; [exact I|].
    change (rev (c :: r)) with (rev r ++ [c]).
    rewrite (lstrip_chars_keeps_last _ _ _ H), rev_app_distr. exact H.
  - apply lstrip_chars_head.
Qed.

Lemma strip_chars_fixed (P : char -> bool) (s : pystr) :
  match s with c :: _ => P c = false | [] => True end ->
  match rev s with c :: _ => P c = false | [] => True end ->
  strip_chars P s = s.
Proof.
  intros H1 H2. unfold strip_chars, rstrip_chars.
  rewrite (lstrip_chars_fixed _ _ H1), (lstrip_chars_fixed _ _ H2).
  apply rev_involutive.
Qed.

Lemma no_double_dash_app (a b : pystr) :
  no_double_dash (a ++ b) = true ->
  no_double_dash a = true /\ no_double_dash b = true.
Proof.
  induction a as [|c a IH]; [now split|].
  destruct a as [|d a].
  - cbn [app]. destruct b as [|e b]; [now split|].
    rewrite no_double_dash_cons.
    intros H. apply andb_prop in H as [_ H]. now split.
  - cbn [app] in *. rewrite !no_double_dash_cons.
    intros H. apply andb_prop in H as [H1 H2].
    destruct (IH H2) as [Ha Hb]. split; [|exact Hb].
    now rewrite H1.
Qed.

(** ** The shape of a sanitised name *)

Lemma is_base_char_ascii (c : char) : is_base_char c = true -> is_ascii c = true.
Proof.
  unfold is_base_char, is_alnum, is_dot, is_dash, in_range, is_ascii, dot, dash.
  intros H. apply N.ltb_lt.
  repeat (apply orb_prop in H as [H|H]);
    try (apply andb_prop in H as [_ H]; apply N.leb_le in H; lia);
    apply N.eqb_eq in H; lia.
Qed.

Lemma edge_alnum (c : char) :
  is_base_char c = true -> is_dash c || is_dot c = false -> is_alnum c = true.
Proof.
  unfold is_base_char. destruct (is_alnum c); [reflexivity|].
  destruct (is_dot c), (is_dash c); discriminate.
Qed.

Section FilenameFacts.
Variable nfkd : pystr -> pystr.
Variable is_sep : char -> bool.

Lemma component_fallback_or_clean (value fallback : pystr) :
  sanitize_filename_component nfkd value fallback = fallback \/
  clean_name (sanitize_filename_component nfkd value fallback) = true.
Proof.
  unfold sanitize_filename_component.
  set (n0 := _ascii_normalize nfkd (py_or value [])).
  set (n1 := re_sub_runs is_separator [dash] n0).
  set (n2 := re_sub_runs (fun c => negb (is_base_char c)) [dash] n1).
  set (n3 := re_sub_runs is_dash [dash] n2).
  set (P := fun c => is_dash c || is_dot c).
  assert (H2 : forallb is_base_char n2 = true).
  { pose proof (sub_from_removes (fun c => negb (is_base_char c)) [dash]
                  eq_refl n1 false) as H.
    rewrite forallb_forall in H. apply forallb_forall. intros c Hc.
    specialize (H c Hc). now destruct (is_base_char c). }
  assert (H3 : forallb is_base_char n3 = true).
  { apply sub_from_forallb; [reflexivity|].
    rewrite forallb_forall in H2. apply forallb_forall. intros c Hc.
    rewrite (H2 c Hc). apply orb_true_r. }
  assert (H3d : no_double_dash n3 = true) by apply sub_dash_no_double.
  destruct (strip_chars_infix P n3) as (l & r & Hinfix).
  destruct (strip_chars_ends P n3) as [He1 He2].
  unfold py_or. destruct (strip_chars P n3) as [|c n4] eqn:E; [now left|right].
  cbn [truthy].
  assert (H4 : forallb is_base_char (c :: n4) = true).
  { rewrite Hinfix, !forallb_app in H3.
    apply andb_prop in H3 as [_ H3]. now apply andb_prop in H3 as [H3 _]. }
  assert (H4d : no_double_dash (c :: n4) = true).
  { rewrite Hinfix in H3d. apply no_double_dash_app in H3d as [_ H3d].
    now apply no_double_dash_app in H3d as [H3d _]. }
  unfold clean_name. rewrite H4, H4d, andb_true_r. cbn [andb].
  apply andb_true_intro. split.
  - cbn [starts_alnum]. cbn [forallb] in H4. apply andb_prop in H4 as [H4 _].
    now apply edge_alnum.
  - assert (H4r : forallb is_base_char (rev (c :: n4)) = true)
      by now rewrite forallb_rev.
    destruct (rev (c :: n4)) as [|d x] eqn:Er.
    + apply (f_equal (@length _)) in Er. rewrite length_rev in Er. discriminate Er.
    + cbn [starts_alnum]. cbn [forallb] in H4r. apply andb_prop in H4r as [H4r _].
      now apply edge_alnum.
Qed.

(** X15: with a fallback of that shape (as the default "file" is),
    [sanitize_filename_component] always returns a non-empty name of
    letters, digits, dots and dashes, with a letter or digit at each end
    and no two dashes in a row. *)
Theorem sanitize_component_clean (value fallback : pystr) :
  clean_name fallback = true ->
  clean_name (sanitize_filename_component nfkd value fallback) = true.
Proof.
  intros Hfb.
  destruct (component_fallback_or_clean value fallback) as [-> | H];
    [exact Hfb | exact H].
Qed.

Lemma filter_all {A} (P : A -> bool) (s : list A) :
  forallb P s = true -> filter P s = s.
Proof.
  induction s as [|c s IH]; [reflexivity|]. cbn. intros H.
  apply andb_prop in H as [-> H]. now rewrite IH.
Qed.

Lemma forallb_impl {A} (P Q : A -> bool) (s : list A) :
  (forall c, P c = true -> Q c = true) ->
  forallb P s = true -> forallb Q s = true.
Proof.
  intros H Hs. rewrite forallb_forall in Hs. apply forallb_forall.
  intros c Hc. apply H, Hs, Hc.
Qed.

Lemma base_char_not_separator (c : char) :
  is_base_char c = true -> negb (is_separator c) = true.
Proof.
  unfold is_base_char, is_alnum, is_dot, is_dash, is_separator, isspace,
    in_range, dot, dash. cbn [existsb fst snd]. intros H.
  repeat (apply orb_prop in H as [H|H]);
    try (apply andb_prop in H as [H H']; apply N.leb_le in H, H');
    try apply N.eqb_eq in H;
    apply negb_true_iff;
    repeat (apply orb_false_intro);
    try (apply andb_false_iff; first [left; apply N.leb_gt; lia | right; apply N.leb_gt; lia]);
    try (apply N.eqb_neq; lia); reflexivity.
Qed.

Lemma base_char_not_unicode_dash (c : char) :
  is_base_char c = true -> negb (is_unicode_dash c) = true.
Proof.
  intros H. apply is_base_char_ascii in H. unfold is_ascii in H.
  apply N.ltb_lt in H. unfold is_unicode_dash, in_range.
  apply negb_true_iff, orb_false_intro.
  - apply andb_false_iff. left. apply N.leb_gt. lia.
  - apply N.eqb_neq. lia.
Qed.

Lemma alnum_not_edge (c : char) :
  is_alnum c = true -> is_dash c || is_dot c = false.
Proof.
  unfold is_alnum, is_dot, is_dash, in_range, dot, dash. intros H.
  apply orb_false_intro; apply N.eqb_neq;
    repeat (apply orb_prop in H as [H|H]);
    apply andb_prop in H as [H H']; apply N.leb_le in H, H'; lia.
Qed.

Lemma component_clean_fixed (r fallback : pystr) :
  (forall s, forallb is_ascii s = true -> nfkd s = s) ->
  clean_name r = true ->
  sanitize_filename_component nfkd r fallback = r.
Proof.
  intros Hnfkd Hr. unfold clean_name in Hr.
  apply andb_prop in Hr as [Hr Hdd]. apply andb_prop in Hr as [Hr Hlast].
  apply andb_prop in Hr as [Hbase Hfirst].
  assert (Hne : truthy r = true) by now destruct r.
  unfold sanitize_filename_component, _ascii_normalize, re_sub_runs, py_or.
  rewrite Hne.
  rewrite (sub_from_unchanged is_unicode_dash)
    by (revert Hbase; apply forallb_impl, base_char_not_unicode_dash).
  rewrite Hnfkd by (revert Hbase; apply forallb_impl, is_base_char_ascii).
  rewrite filter_all by (revert Hbase; apply forallb_impl, is_base_char_ascii).
  rewrite (sub_from_unchanged is_separator)
    by (revert Hbase; apply forallb_impl, base_char_not_separator).
  rewrite (sub_from_unchanged (fun c => negb (is_base_char c)))
    by (revert Hbase; apply forallb_impl; intros c ->; reflexivity).
  rewrite sub_dash_unchanged by exact Hdd.
  rewrite strip_chars_fixed.
  - now rewrite Hne.
  - destruct r as [|c r]; [exact I|]. now apply alnum_not_edge.
  - destruct (rev r) as [|c x]; [exact I|]. now apply alnum_not_edge.
Qed.

(** X16: sanitising a sanitised component again, with whatever fallback,
    changes nothing (the first fallback being of that shape, and NFKD
    leaving ASCII text unchanged). *)
Theorem sanitize_component_idempotent (value fallback fallback' : pystr) :
  (forall s, forallb is_ascii s = true -> nfkd s = s) ->
  clean_name fallback = true ->
  sanitize_filename_component nfkd
    (sanitize_filename_component nfkd value fallback) fallback'
  = sanitize_filename_component nfkd value fallback.
Proof.
  intros Hnfkd Hfb. apply component_clean_fixed; [exact Hnfkd|].
  destruct (component_fallback_or_clean value fallback) as [-> | H];
    [exact Hfb | exact H].
Qed.

Lemma lower_alnum (s : pystr) :
  forallb is_alnum s = true -> forallb is_lower_alnum (lower s) = true.
Proof.
  unfold lower. induction s as [|c s IH]; [reflexivity|]. cbn [forallb map].
  intros H. apply andb_prop in H as [Hc Hs]. rewrite (IH Hs), andb_true_r.
  unfold is_alnum, is_lower_alnum, in_range in *.
  destruct ((65 <=? c)%N && (c <=? 90)%N) eqn:E.
  - apply andb_prop in E as [E1 E2]. apply N.leb_le in E1, E2.
    apply orb_true_intro. left.
    apply andb_true_intro. split; apply N.leb_le; lia.
  - cbn [orb] in Hc. exact Hc.
Qed.

Lemma lower_alnum_base (s : pystr) :
  forallb is_lower_alnum s = true -> forallb is_base_char s = true.
Proof.
  apply forallb_impl. intros c H. unfold is_base_char, is_alnum.
  unfold is_lower_alnum in H. apply orb_prop in H as [->| ->];
    rewrite ?orb_true_r; reflexivity.
Qed.

Lemma filename_base_ext (filename fallback : pystr) :
  exists base ext,
    sanitize_filename nfkd is_sep filename fallback = base ++ ext /\
    (base = fallback \/ clean_name base = true) /\
    (ext = [] \/
     exists e, ext = dot :: e /\ e <> [] /\ forallb is_lower_alnum e = true).
Proof.
  unfold sanitize_filename.
  destruct (splitext is_sep (strip (py_or filename []))) as [b x].
  set (safe_base := sanitize_filename_component nfkd (py_or b _) fallback).
  set (safe_ext := re_sub_runs _ [] _).
  exists safe_base.
  destruct (truthy safe_ext) eqn:E.
  - exists ([dot] ++ lower safe_ext). split; [reflexivity|].
    split; [apply component_fallback_or_clean|right].
    exists (lower safe_ext). split; [reflexivity|]. split.
    + destruct safe_ext; [discriminate E|discriminate].
    + apply lower_alnum.
      pose proof (sub_from_removes (fun c => negb (is_alnum c)) [] eq_refl
                    (lstrip_chars is_dot (_ascii_normalize nfkd x)) false) as H.
      revert H. apply forallb_impl. intros c Hc. now destruct (is_alnum c).
  - exists []. rewrite app_nil_r. split; [reflexivity|].
    split; [apply component_fallback_or_clean|now left].
Qed.

(** X17: with a fallback of that shape (as the default "download" is),
    [sanitize_filename] returns a base of that shape, followed by nothing
    or by a dot and a non-empty extension of lower-case letters and
    digits. *)
Theorem sanitize_filename_shape (filename fallback : pystr) :
  clean_name fallback = true ->
  exists base ext,
    sanitize_filename nfkd is_sep filename fallback = base ++ ext /\
    clean_name base = true /\
    (ext = [] \/
     exists e, ext = dot :: e /\ e <> [] /\ forallb is_lower_alnum e = true).
Proof.
  intros Hfb.
  destruct (filename_base_ext filename fallback) as (base & ext & E & Hb & He).
  exists base, ext. split; [exact E|]. split; [|exact He].
  destruct Hb as [-> | Hb]; [exact Hfb | exact Hb].
Qed.

Lemma clean_name_base (s : pystr) :
  clean_name s = true -> forallb is_base_char s = true.
Proof.
  unfold clean_name. intros H. apply andb_prop in H as [H _].
  apply andb_prop in H as [H _]. now apply andb_prop in H as [H _].
Qed.

(** X18: with a fallback of letters, digits, dots and dashes (as the
    default "download" is), every character of the sanitised filename is a
    letter, a digit, a dot or a dash: no separator, no whitespace, nothing
    outside ASCII. *)
Theorem sanitize_filename_charset (filename fallback : pystr) :
  forallb is_base_char fallback = true ->
  forallb is_base_char (sanitize_filename nfkd is_sep filename fallback) = true.
Proof.
  intros Hfb.
  destruct (filename_base_ext filename fallback)
    as (base & ext & -> & Hbase & Hext).
  rewrite forallb_app. apply andb_true_intro. split.
  - destruct Hbase as [->|Hbase]; [exact Hfb|now apply clean_name_base].
  - destruct Hext as [->|(e & -> & _ & He)]; [reflexivity|].
    cbn [forallb]. now rewrite (lower_alnum_base _ He).
Qed.

Lemma strip_all_space (s : pystr) : forallb isspace s = true -> strip s = [].
Proof. intros H. unfold strip. now rewrite (lstrip_all_space _ H). Qed.

(** X19: an empty or blank filename gives the fallback. *)
Theorem sanitize_filename_blank (filename fallback : pystr) :
  nfkd [] = [] ->
  forallb isspace filename = true ->
  sanitize_filename nfkd is_sep filename fallback = fallback.
Proof.
  intros Hnfkd Hblank. unfold sanitize_filename.
  assert (Hraw : strip (py_or filename []) = []).
  { unfold py_or. destruct (truthy filename); [now apply strip_all_space|reflexivity]. }
  rewrite Hraw. change (splitext is_sep []) with (@nil char, @nil char).
  unfold sanitize_filename_component, _ascii_normalize, py_or.
  cbn [truthy re_sub_runs sub_from]. rewrite Hnfkd. reflexivity.
Qed.

(** ** Splitting off the extension *)

Lemma rfind_from_none (cls : char -> bool) (s : pystr) :
  forallb (fun c => negb (cls c)) s = true ->
  forall i found, rfind_from cls i found s = found.
Proof.
  induction s as [|c s IH]; intros H i found; [reflexivity|].
  cbn [forallb] in H. apply andb_prop in H as [Hc Hs]. cbn [rfind_from].
  destruct (cls c); [discriminate|]. now apply IH.
Qed.

Lemma rfind_from_last (cls : char -> bool) (a e : pystr) (c : char) :
  cls c = true -> forallb (fun c => negb (cls c)) e = true ->
  forall i found,
    rfind_from cls i found (a ++ c :: e) = (i + Z.of_nat (length a))%Z.
Proof.
  intros Hc He. induction a as [|x a IH]; intros i found.
  - cbn [app rfind_from length]. rewrite Hc, rfind_from_none by exact He. lia.
  - cbn [app rfind_from]. rewrite IH. cbn [length]. lia.
Qed.

Lemma splitext_last_dot (b e : pystr) :
  forallb (fun c => negb (is_sep c)) (b ++ dot :: e) = true ->
  starts_alnum b = true ->
  forallb (fun c => negb (is_dot c)) e = true ->
  splitext is_sep (b ++ dot :: e) = (b, dot :: e).
Proof.
  intros Hsep Hb He. unfold splitext, rfind.
  rewrite (rfind_from_none is_sep _ Hsep).
  rewrite (rfind_from_last is_dot b e dot eq_refl He).
  change (Z.to_nat (-1 + 1)) with 0. rewrite Z.add_0_l, Nat2Z.id.
  unfold Re.slice. cbn [skipn]. rewrite Nat.sub_0_r.
  rewrite firstn_app, firstn_all, Nat.sub_diag, skipn_app, skipn_all, Nat.sub_diag.
  cbn [firstn skipn app]. rewrite app_nil_r.
  replace (Z.of_nat (length b) >? -1)%Z with true by (symmetry; apply Z.gtb_lt; lia).
  destruct b as [|c b]; [discriminate Hb|]. cbn [starts_alnum] in Hb.
  cbn [existsb andb].
  assert (Hc : is_dot c = false).
  { pose proof (alnum_not_edge _ Hb) as H. now apply orb_false_elim in H as [_ H]. }
  now rewrite Hc.
Qed.

Lemma alnum_base (s : pystr) :
  forallb is_alnum s = true -> forallb is_base_char s = true.
Proof. apply forallb_impl. intros c H. unfold is_base_char. now rewrite H. Qed.

Lemma alnum_not_dot (s : pystr) :
  forallb is_alnum s = true -> forallb (fun c => negb (is_dot c)) s = true.
Proof.
  apply forallb_impl. intros c H. apply alnum_not_edge in H.
  apply orb_false_elim in H as [_ H]. now rewrite H.
Qed.

Lemma base_char_not_space (c : char) : is_base_char c = true -> isspace c = false.
Proof.
  intros H. apply base_char_not_separator in H. unfold is_separator in H.
  now destruct (isspace c).
Qed.

Lemma lower_lower_alnum (s : pystr) :
  forallb is_lower_alnum s = true -> lower s = s.
Proof.
  unfold lower. induction s as [|c s IH]; [reflexivity|]. cbn [forallb map].
  intros H. apply andb_prop in H as [Hc Hs]. rewrite (IH Hs). f_equal.
  unfold is_lower_alnum, in_range in *.
  destruct ((65 <=? c)%N && (c <=? 90)%N) eqn:E; [|reflexivity].
  apply andb_prop in E as [E1 E2]. apply N.leb_le in E1, E2.
  apply orb_prop in Hc as [Hc|Hc]; apply andb_prop in Hc as [H1 H2];
    apply N.leb_le in H1, H2; lia.
Qed.

(** X20: a name that is already well formed, a clean base, a dot and an
    extension of letters and digits, keeps its base and gets its extension
    in lower case (NFKD leaves ASCII text unchanged; no letter, digit, dot
    or dash is a path separator). *)
Theorem sanitize_filename_well_formed (b e fallback : pystr) :
  (forall s, forallb is_ascii s = true -> nfkd s = s) ->
  (forall c, is_base_char c = true -> is_sep c = false) ->
  clean_name b = true -> e <> [] -> forallb is_alnum e = true ->
  sanitize_filename nfkd is_sep (b ++ dot :: e) fallback = b ++ dot :: lower e.
Proof.
  intros Hnfkd Hsep Hb Hne He.
  assert (Hbase : forallb is_base_char (b ++ dot :: e) = true).
  { rewrite forallb_app. cbn [forallb].
    now rewrite (clean_name_base _ Hb), (alnum_base _ He). }
  assert (Hfirst : starts_alnum b = true).
  { unfold clean_name in Hb. apply andb_prop in Hb as [Hb _].
    apply andb_prop in Hb as [Hb _]. now apply andb_prop in Hb as [_ Hb]. }
  assert (Hraw : strip (py_or (b ++ dot :: e) []) = b ++ dot :: e).
  { unfold py_or. destruct b as [|c b]; [discriminate Hfirst|]. cbn [app truthy].
    destruct (exists_last Hne) as (e' & d & ->).
    assert (Hd : is_base_char d = true).
    { rewrite forallb_forall in Hbase. apply Hbase.
      apply in_or_app. right. right. apply in_or_app. right. now left. }
    replace (c :: b ++ dot :: e' ++ [d]) with (c :: (b ++ dot :: e') ++ [d])
      by (rewrite <- app_assoc; reflexivity).
    apply trimmed_strip, trimmed_ends; apply base_char_not_space; [|exact Hd].
    cbn [starts_alnum] in Hfirst. unfold is_base_char. now rewrite Hfirst. }
  unfold sanitize_filename. rewrite Hraw.
  rewrite splitext_last_dot;
    [|revert Hbase; apply forallb_impl; intros c Hc; now rewrite (Hsep c Hc)
     |exact Hfirst|now apply alnum_not_dot].
  assert (Hbne : truthy b = true) by now destruct b.
  unfold py_or at 1. rewrite Hbne.
  rewrite (component_clean_fixed b fallback Hnfkd Hb).
  unfold _ascii_normalize, re_sub_runs.
  assert (Hext : forallb is_base_char (dot :: e) = true)
    by (cbn [forallb]; now rewrite (alnum_base _ He)).
  rewrite (sub_from_unchanged is_unicode_dash)
    by (revert Hext; apply forallb_impl, base_char_not_unicode_dash).
  rewrite Hnfkd by (revert Hext; apply forallb_impl, is_base_char_ascii).
  rewrite filter_all by (revert Hext; apply forallb_impl, is_base_char_ascii).
  cbn [lstrip_chars]. replace (is_dot dot) with true by reflexivity.
  rewrite lstrip_chars_fixed.
  - rewrite sub_from_unchanged
      by (revert He; apply forallb_impl; intros c ->; reflexivity).
    destruct e; [contradiction|reflexivity].
  - destruct e as [|c e']; [exact I|]. cbn [forallb] in He.
    apply andb_prop in He as [Hc _]. apply alnum_not_edge in Hc.
    now apply orb_false_elim in Hc as [_ Hc].
Qed.
End FilenameFacts.

Lemma is_base_char_not_slash (c : char) :
  is_base_char c = true -> posix_sep c = false.
Proof.
  unfold is_base_char, is_alnum, is_dot, is_dash, in_range, posix_sep, dot, dash.
  intros H. apply N.eqb_neq.
  repeat (apply orb_prop in H as [H|H]);
    try (apply andb_prop in H as [H H']; apply N.leb_le in H, H'; lia);
    apply N.eqb_eq in H; lia.
Qed.

Lemma sanitize_component_clean_witness :
  clean_name (lit "file") = true /\
  clean_name
    (sanitize_filename_component (fun s => s) (lit "--my  file__(v2)!.") (lit "file"))
  = true /\
  sanitize_filename_component (fun s => s) (lit "--my  file__(v2)!.") (lit "file")
  = lit "my-file-v2".
Proof.
  split; [reflexivity|]. split; [|reflexivity].
  apply sanitize_component_clean. reflexivity.
Defined.

Lemma sanitize_component_idempotent_witness :
  let nfkd := fun s : pystr => s in
  let once := sanitize_filename_component nfkd (lit "John  Doe_(final).") (lit "file") in
  ((forall s, forallb is_ascii s = true -> nfkd s = s) /\
   clean_name (lit "file") = true) /\
  sanitize_filename_component nfkd once (lit "other") = once.
Proof.
  cbv zeta. split; [split; reflexivity|].
  apply sanitize_component_idempotent; reflexivity.
Defined.

Lemma sanitize_filename_shape_witness :
  clean_name (lit "download") = true /\
  exists base ext,
    sanitize_filename (fun s => s) posix_sep (lit "a/b c.tar.G Z") (lit "download")
    = base ++ ext /\
    clean_name base = true /\
    (ext = [] \/
     exists e, ext = dot :: e /\ e <> [] /\ forallb is_lower_alnum e = true).
Proof.
  split; [reflexivity|]. apply sanitize_filename_shape. reflexivity.
Defined.

Lemma sanitize_filename_charset_witness :
  let name := lit " My  Resume_(final) v2.P!DF " in
  forallb is_base_char (lit "download") = true /\
  forallb is_base_char
    (sanitize_filename (fun s => s) posix_sep name (lit "download")) = true /\
  sanitize_filename (fun s => s) posix_sep name (lit "download")
  = lit "My-Resume-final-v2.pdf".
Proof.
  cbv zeta. split; [reflexivity|]. split; [|reflexivity].
  apply sanitize_filename_charset. reflexivity.
Defined.

Lemma sanitize_filename_blank_witness :
  let nfkd := fun s : pystr => s in
  (nfkd [] = [] /\ forallb isspace (lit "   ") = true) /\
  sanitize_filename nfkd posix_sep (lit "   ") (lit "download") = lit "download".
Proof.
  cbv zeta. split; [split; reflexivity|].
  apply sanitize_filename_blank; reflexivity.
Defined.

Lemma sanitize_filename_well_formed_witness :
  let nfkd := fun s : pystr => s in
  ((forall s, forallb is_ascii s = true -> nfkd s = s) /\
   (forall c, is_base_char c = true -> posix_sep c = false) /\
   clean_name (lit "Report-2024.v1") = true /\ lit "PDF" <> [] /\
   forallb is_alnum (lit "PDF") = true) /\
  sanitize_filename nfkd posix_sep (lit "Report-2024.v1" ++ dot :: lit "PDF")
    (lit "download")
  = lit "Report-2024.v1" ++ dot :: lit "pdf".
Proof.
  cbv zeta.
  assert (Hsep : forall c, is_base_char c = true -> posix_sep c = false).
  { intros c H. apply is_base_char_not_slash, H. }
  split; [repeat split; try reflexivity; [exact Hsep|discriminate]|].
  apply (sanitize_filename_well_formed (fun s => s) posix_sep
           (lit "Report-2024.v1") (lit "PDF") (lit "download"));
    try reflexivity; [exact Hsep|discriminate].
Defined.

(** * Short identifiers *)

(** X24: [short_id(n)] has [n] characters, none for a negative [n], and
    every one is a lower-case letter or a digit (each draw falling inside
    the alphabet, as [secrets.choice] guarantees). *)
Theorem short_id_shape (drawn : nat -> nat) (n : Z) :
  (forall i, drawn i < length alphabet) ->
  length (short_id drawn n) = Z.to_nat n /\
  forallb is_lower_alnum (short_id drawn n) = true.
Proof.
  intros Hdraw. unfold short_id. split.
  - now rewrite length_map, length_seq.
  - apply forallb_forall. intros c Hc. apply in_map_iff in Hc as (i & <- & _).
    assert (Hall : forallb is_lower_alnum alphabet = true) by reflexivity.
    rewrite forallb_forall in Hall. apply Hall, nth_In, Hdraw.
Qed.

Lemma short_id_shape_witness :
  let drawn := fun i => (7 * i + 3) mod 36 in
  (forall i, drawn i < length alphabet) /\
  length (short_id drawn 8) = Z.to_nat 8 /\
  forallb is_lower_alnum (short_id drawn 8) = true.
Proof.
  cbv zeta.
  assert (H : forall i, (7 * i + 3) mod 36 < length alphabet)
    by (intros i; apply Nat.mod_upper_bound; discriminate).
  split; [exact H|]. apply short_id_shape. exact H.
Defined.

(** * The unit of work *)

Module UowFacts.
Import Uow.

Section Facts.
Variable raises : list call -> call -> option exn.
Variable created : list call -> session.

Lemma perform_all_log (cs log : list call) :
  exists k, fst (perform_all raises cs log) = log ++ firstn k cs /\
            (snd (perform_all raises cs log) = Ok tt -> k = length cs) /\
            (cs <> [] -> 0 < k).
Proof.
  revert log. induction cs as [|c cs IH]; intros log.
  - exists 0. cbn. rewrite app_nil_r. repeat split; easy.
  - cbn [perform_all]. unfold and_then, perform. destruct (raises log c) as [e|].
    + exists 1. cbn. repeat split; try easy. lia.
    + destruct (IH (log ++ [c])) as (k & Hk & Hok & _).
      exists (S k). cbn [firstn length]. rewrite Hk, <- app_assoc.
      repeat split; [|lia]. intros H. now rewrite Hok.
Qed.

Lemma aexit_perform_all (exc : bool) (u : uow) (log : list call) :
  aexit raises exc (u, log)
  = let (log', r) := perform_all raises (exit_calls u exc) log in
    match r with
    | Ok _ =>
        if _owns_session u
        then ((Build (_injected_session u) None false, log'), Ok tt)
        else ((u, log'), Ok tt)
    | Raise e => ((u, log'), Raise e)
    end.
Proof.
  unfold aexit, exit_calls.
  destruct (_session u) as [s|]; [destruct (_owns_session u)|];
    cbn [perform_all]; unfold and_then, skip, perform;
    repeat match goal with
           | |- context [raises ?l ?c] => destruct (raises l c)
           end; reflexivity.
Qed.

Lemma injected_step (s : session) (a : action) (st : state) :
  injected_inv s st -> injected_inv s (step raises created a st).
Proof.
  destruct st as [[inj ses owns] log]. unfold injected_inv. cbn [fst snd].
  intros (Hinj & Howns & Hses & Hlog). cbn in Hinj, Howns, Hses. subst inj owns.
  destruct a as [| | |exc]; cbn [step].
  - unfold get_session. cbn.
    destruct Hses as [->| ->]; cbn; repeat split; auto.
  - unfold commit. cbn.
    destruct Hses as [->| ->]; cbn; repeat split; auto.
    apply Forall_app. split; [exact Hlog|].
    constructor; [unfold on_injected; auto|constructor].
  - unfold rollback. cbn.
    destruct Hses as [->| ->]; cbn; repeat split; auto.
    apply Forall_app. split; [exact Hlog|].
    constructor; [unfold on_injected; auto|constructor].
  - rewrite aexit_perform_all.
    set (u := Build (Some s) ses false).
    destruct (perform_all_log (exit_calls u exc) log) as (k & Hk & _).
    destruct (perform_all raises (exit_calls u exc) log) as [log' r].
    cbn [fst] in Hk. subst log'.
    assert (Hcalls : Forall (on_injected s) (exit_calls u exc)).
    { unfold exit_calls, u. cbn.
      destruct Hses as [->| ->];
        repeat (constructor; [unfold on_injected, finish; destruct exc; auto|]);
        constructor. }
    assert (Hlog' : Forall (on_injected s) (log ++ firstn k (exit_calls u exc))).
    { apply Forall_app. split; [exact Hlog|].
      rewrite Forall_forall in *. intros c Hc. apply Hcalls.
      rewrite <- (firstn_skipn k). apply in_or_app. now left. }
    destruct r; cbn; repeat split; auto.
Qed.

(** X21: a unit of work built around an injected session never closes it
    and never creates another: whatever the user does and whichever calls
    fail, it only commits and rolls back that session and clears its
    repositories. *)
Theorem injected_session_never_closed (s : session) (actions : list action) :
  Forall (on_injected s) (snd (run raises created actions (new (Some s), []))) /\
  _owns_session (fst (run raises created actions (new (Some s), []))) = false.
Proof.
  assert (H : forall st, injected_inv s st ->
                         injected_inv s (run raises created actions st)).
  { induction actions as [|a actions IH]; intros st Hst; [exact Hst|].
    cbn [run fold_left]. apply IH, injected_step, Hst. }
  destruct (H (new (Some s), [])) as (_ & Howns & _ & Hlog).
  - repeat split; auto.
  - now split.
Qed.

Lemma perform_all_first_failure (cs log : list call) :
  exists k,
    fst (perform_all raises cs log) = log ++ firstn k cs /\
    (forall i, S i < k -> nth_raises raises log cs i = None) /\
    match snd (perform_all raises cs log) with
    | Ok _ => k = length cs /\
              (0 < k -> nth_raises raises log cs (k - 1) = None)
    | Raise e => 0 < k <= length cs /\
                 nth_raises raises log cs (k - 1) = Some e
    end.
Proof.
  revert log. induction cs as [|c cs IH]; intros log.
  - exists 0. cbn. rewrite app_nil_r. repeat split; intros; lia.
  - cbn [perform_all]. unfold and_then, perform.
    destruct (raises log c) as [e|] eqn:Ec.
    + exists 1. cbn [fst snd firstn length]. split; [reflexivity|].
      split; [intros i Hi; lia|]. split; [lia|].
      unfold nth_raises. cbn. now rewrite app_nil_r.
    + destruct (IH (log ++ [c])) as (k & Hk & Hbefore & Hlast).
      assert (Hshift : forall i, nth_raises raises log (c :: cs) (S i)
                                 = nth_raises raises (log ++ [c]) cs i).
      { intros i. unfold nth_raises. cbn [firstn nth].
        now rewrite <- app_assoc. }
      assert (Hfirst : nth_raises raises log (c :: cs) 0 = None).
      { unfold nth_raises. cbn. now rewrite app_nil_r. }
      exists (S k). cbn [firstn length]. rewrite Hk, <- app_assoc.
      split; [reflexivity|]. split.
      * intros [|i] Hi; [exact Hfirst|]. rewrite Hshift. apply Hbefore. lia.
      * destruct (snd (perform_all raises cs (log ++ [c]))) as [[]|e].
        -- destruct Hlast as [-> Hlast]. split; [reflexivity|]. intros _.
           cbn [Nat.sub]. rewrite Nat.sub_0_r.
           destruct (length cs) as [|n] eqn:En; [exact Hfirst|].
           rewrite Hshift.
           replace n with (S n - 1) by lia. apply Hlast. lia.
        -- destruct Hlast as [Hk' Hlast]. split; [lia|].
           cbn [Nat.sub]. rewrite Nat.sub_0_r.
           destruct k as [|n]; [lia|]. rewrite Hshift.
           replace n with (S n - 1) by lia. exact Hlast.
Qed.

(** X22: [__aexit__] makes its calls in order and stops at the first that
    raises: rollback when an exception is passed and commit otherwise,
    close only for a session the unit created, then [_clear_repos].  Of
    the calls it sets out to make it makes the first [k]: none before the
    last of them raised; when it returns, they are all the calls, the last
    did not raise either and an owning unit forgets its session; when it
    raises, the exception is the one the last call made raised, no later
    call is made and the fields are left as they were. *)
Theorem aexit_calls (exc : bool) (u : uow) (log : list call) :
  exists k,
    0 < k /\
    snd (fst (aexit raises exc (u, log))) = log ++ firstn k (exit_calls u exc) /\
    (forall i, S i < k -> nth_raises raises log (exit_calls u exc) i = None) /\
    match snd (aexit raises exc (u, log)) with
    | Ok _ =>
        k = length (exit_calls u exc) /\
        nth_raises raises log (exit_calls u exc) (k - 1) = None /\
        fst (fst (aexit raises exc (u, log)))
        = if _owns_session u then Build (_injected_session u) None false else u
    | Raise e =>
        k <= length (exit_calls u exc) /\
        nth_raises raises log (exit_calls u exc) (k - 1) = Some e /\
        fst (fst (aexit raises exc (u, log))) = u
    end.
Proof.
  rewrite aexit_perform_all.
  destruct (perform_all_first_failure (exit_calls u exc) log)
    as (k & Hk & Hbefore & Hlast).
  assert (Hne : 0 < length (exit_calls u exc)).
  { unfold exit_calls.
    destruct (_session u); [destruct (_owns_session u)|]; cbn; lia. }
  exists k.
  destruct (perform_all raises (exit_calls u exc) log) as [log' r].
  cbn [fst snd] in *. subst log'.
  destruct r as [[]|e].
  - destruct Hlast as [-> Hlast].
    destruct (_owns_session u); cbn [fst snd]; repeat split; auto.
  - destruct Hlast as [Hk Hlast]. cbn [fst snd]. repeat split; auto; lia.
Qed.

(** A unit that created its session is as new after an exit in which
    no call raises: the session was finished, closed, and forgotten, so the
    next access creates another. *)
Lemma owned_exit_resets (exc : bool) (s : session) (log : list call) :
  raises log (finish exc s) = None ->
  raises (log ++ [finish exc s]) (Close s) = None ->
  raises (log ++ [finish exc s; Close s]) Clear_repos = None ->
  aexit raises exc (Build None (Some s) true, log)
  = ((new None, log ++ [finish exc s; Close s; Clear_repos]), Ok tt).
Proof.
  intros H1 H2 H3. unfold aexit, and_then, perform.
  cbn [_session _owns_session]. rewrite H1, H2.
  replace ((log ++ [finish exc s]) ++ [Close s])
    with (log ++ [finish exc s; Close s]) by (now rewrite <- app_assoc).
  rewrite H3. cbn. unfold new.
  do 2 f_equal. now rewrite <- !app_assoc.
Qed.

End Facts.


(** ** Sessions are not used after they are closed *)

Section Protocol.
Variable created : list call -> session.

Lemma never_after_close_snoc (log : list call) (c : call) :
  never_after_close log ->
  (forall s, uses s c -> ~ In (Close s) log) ->
  never_after_close (log ++ [c]).
Proof.
  intros Hlog Hc l1 c' l2 s Heq Huse.
  destruct (exists_last (l := c' :: l2) ltac:(discriminate)) as (l2' & d & Hd).
  rewrite Hd, app_assoc in Heq. apply app_inj_tail in Heq as [-> <-].
  destruct l2' as [|x l2'].
  - cbn in Hd. injection Hd as <- _. rewrite app_nil_r in *. now apply Hc.
  - cbn in Hd. injection Hd as <- _. intros Hin.
    apply (Hlog l1 c' l2' s); [reflexivity|exact Huse|exact Hin].
Qed.

Lemma owner_step (a : action) (st : state) :
  (forall log, ~ In (Close (created log)) log) ->
  owner_inv st -> owner_inv (step quiet created a st).
Proof.
  intros Hfresh. destruct st as [[inj ses owns] log]. unfold owner_inv.
  cbn [fst snd _injected_session _session _owns_session].
  intros (-> & Hlog & Hses).
  destruct a as [| | |exc]; cbn [step].
  - unfold get_session, perform, quiet.
    cbn [_session _injected_session].
    destruct ses as [s|]; cbn [fst snd _injected_session _session _owns_session].
    + now repeat split.
    + repeat split.
      * apply never_after_close_snoc; [exact Hlog|].
        intros s [H|[H|H]]; discriminate H.
      * intros Hin. apply in_app_or in Hin as [Hin|[Hin|[]]];
          [now apply (Hfresh log)|discriminate Hin].
  - unfold commit, perform, quiet. cbn [_session].
    destruct ses as [s|]; cbn [fst snd _injected_session _session _owns_session];
      [|now repeat split].
    destruct Hses as [Howns Hclosed]. repeat split; auto.
    + apply never_after_close_snoc; [exact Hlog|].
      intros s' [H|[H|H]]; try discriminate H. now injection H as <-.
    + intros Hin. apply in_app_or in Hin as [Hin|[Hin|[]]];
        [now apply Hclosed|discriminate Hin].
  - unfold rollback, perform, quiet. cbn [_session].
    destruct ses as [s|]; cbn [fst snd _injected_session _session _owns_session];
      [|now repeat split].
    destruct Hses as [Howns Hclosed]. repeat split; auto.
    + apply never_after_close_snoc; [exact Hlog|].
      intros s' [H|[H|H]]; try discriminate H. now injection H as <-.
    + intros Hin. apply in_app_or in Hin as [Hin|[Hin|[]]];
        [now apply Hclosed|discriminate Hin].
  - unfold aexit, and_then, skip, perform, quiet.
    cbn [_session _owns_session _injected_session].
    destruct ses as [s|].
    + destruct Hses as [-> Hclosed].
      cbn [fst snd _injected_session _session _owns_session].
      repeat split.
      assert (H1 : never_after_close (log ++ [finish exc s])).
      { apply never_after_close_snoc; [exact Hlog|].
        intros s' Hs'. assert (s' = s) as ->; [|exact Hclosed].
        unfold finish in Hs'. destruct exc, Hs' as [H|[H|H]];
          try discriminate H; now injection H. }
      assert (H2 : never_after_close ((log ++ [finish exc s]) ++ [Close s])).
      { apply never_after_close_snoc; [exact H1|].
        intros s' [H|[H|H]]; try discriminate H. injection H as <-.
        intros Hin. apply in_app_or in Hin as [Hin|[Hin|[]]];
          [now apply Hclosed|destruct exc; discriminate Hin]. }
      apply never_after_close_snoc; [exact H2|].
      intros s' [H|[H|H]]; discriminate H.
    + rewrite Hses. cbn [fst snd _injected_session _session _owns_session].
      repeat split.
      apply never_after_close_snoc; [exact Hlog|].
      intros s' [H|[H|H]]; discriminate H.
Qed.

(** X23: when no call fails and [_create_session] never returns a session
    that was closed before, a unit of work that creates its own sessions
    never commits, rolls back or closes a session after closing it. *)
Theorem session_never_used_after_close (actions : list action) :
  (forall log, ~ In (Close (created log)) log) ->
  never_after_close (snd (run quiet created actions (new None, []))).
Proof.
  intros Hfresh.
  assert (H : forall st, owner_inv st -> owner_inv (run quiet created actions st)).
  { induction actions as [|a actions IH]; intros st Hst; [exact Hst|].
    cbn [run fold_left]. apply IH, owner_step; assumption. }
  apply H. repeat split. intros l1 c l2 s Heq. now destruct l1.
Qed.
End Protocol.

Lemma fresh_session_not_closed (log : list call) :
  ~ In (Close (fresh_session log)) log.
Proof.
  assert (H : forall s, In (Close s) log -> s < fresh_session log).
  { unfold fresh_session. induction log as [|c log IH]; intros s; [easy|].
    cbn [fold_right]. intros [->|Hin]; [cbn [session_of]; lia|].
    specialize (IH s Hin). lia. }
  intros Hin. apply H in Hin. lia.
Qed.

Lemma session_never_used_after_close_witness :
  let actions := [Get_session; Do_commit; Do_exit false; Do_rollback;
                  Get_session; Do_exit true] in
  (forall log, ~ In (Close (fresh_session log)) log) /\
  never_after_close (snd (run quiet fresh_session actions (new None, []))).
Proof.
  cbv zeta. split; [exact fresh_session_not_closed|].
  apply (session_never_used_after_close fresh_session).
  exact fresh_session_not_closed.
Defined.

End UowFacts.

(** * The tracing wrapper of the LLM client *)

Module ClientFacts.
Import Client.

Ltac run_world :=
  unfold _invoke_with_tracing, invoke_body, invoke_untraced, with_span,
    catch, then_, call, local, ret, fail, unit_of;
  cbn [has_client start_span enter_span make_handler invoke_traced
       update_trace exit_plain exit_error invoke_plain flush app fst snd].

Ltac split_world :=
  repeat match goal with
         | |- context [match ?x with _ => _ end] =>
             lazymatch x with
             | context [match _ with _ => _ end] => fail
             | _ => destruct x eqn:?
             end
         | |- context [if ?x then _ else _] =>
             lazymatch x with
             | context [match _ with _ => _ end] => fail
             | _ => destruct x eqn:?
             end
         end.


(** X26: a string handed back is the normalisation of what the chain
    returned: by its untraced invocation when that one was made, by the
    traced one otherwise. *)
Theorem returned_is_normalized (w : world) (s : pystr) :
  snd (_invoke_with_tracing w) = Returned s ->
  exists r,
    normalize_result r = Ok s /\
    (if existsb (fun ev => match ev with Invoke false => true | _ => false end)
          (fst (_invoke_with_tracing w))
     then invoke_plain w = Ok r
     else invoke_traced w = Ok r).
Proof.
  destruct w. run_world. split_world; cbn; intros [= <-]; eauto.
Qed.

(** X27: what comes out instead of a string comes from one of two places.
    An exception of a collaborator is that of the untraced invocation of
    the chain or of the normalisation of its result: what the tracing
    calls and the traced invocation raise stays inside.  The
    [UnboundLocalError] of [return normalized] comes out only when the
    span's [__exit__] swallowed an exception, and then the chain was not
    invoked untraced. *)
Theorem raised_only_by_untraced_invocation (w : world) :
  match snd (_invoke_with_tracing w) with
  | Returned _ => True
  | Raised e =>
      In (Invoke false) (fst (_invoke_with_tracing w)) /\
      (invoke_plain w = Raise e \/
       exists r, invoke_plain w = Ok r /\ normalize_result r = Raise e)
  | Unbound_local =>
      has_client w = true /\ exit_error w = Ok true /\
      In (Exit_span true) (fst (_invoke_with_tracing w)) /\
      ~ In (Invoke false) (fst (_invoke_with_tracing w))
  end.
Proof.
  destruct w. run_world. split_world; cbn;
    try match goal with
        | H : snd _ = _ |- _ => cbn in H; try discriminate H; injection H as <-
        end;
    first
      [ exact I
      | split; [repeat ((left; reflexivity) || right)|eauto]; fail
      | split; [reflexivity|]; split; [reflexivity|];
        split; [repeat ((left; reflexivity) || right)|];
        intros H; repeat (destruct H as [H|H]; [discriminate H|]); exact H ].
Qed.

(** X28: the chain is invoked once, or twice, traced then untraced; it is
    not invoked at all only when the span's [__exit__] swallows an exception
    raised before the invocation, and then no string is returned. *)
Theorem chain_invoked_once_or_twice (w : world) :
  let invocations := filter is_invoke (fst (_invoke_with_tracing w)) in
  invocations = [Invoke false] \/ invocations = [Invoke true] \/
  invocations = [Invoke true; Invoke false] \/
  (invocations = [] /\ exit_error w = Ok true /\
   snd (_invoke_with_tracing w) = Unbound_local).
Proof.
  cbv zeta. destruct w. run_world. split_world; cbn; auto 6.
Qed.

(** X29: when the result of the traced invocation does not normalise, the
    exception is caught with those of the span and the chain is invoked a
    second time. *)
Theorem failed_normalisation_invokes_again (w : world) (r : pyval) (e : exn) :
  has_client w = true ->
  start_span w = None -> enter_span w = None -> make_handler w = None ->
  invoke_traced w = Ok r -> normalize_result r = Raise e ->
  exit_error w = Ok false ->
  filter is_invoke (fst (_invoke_with_tracing w)) = [Invoke true; Invoke false] /\
  snd (_invoke_with_tracing w)
  = match invoke_plain w with
    | Ok r' =>
        match normalize_result r' with Ok s => Returned s | Raise e' => Raised e' end
    | Raise e' => Raised e'
    end.
Proof.
  intros Hc Hs He Hh Hi Hn Hx. destruct w. cbn in *. subst.
  run_world. rewrite Hn. split_world; cbn; auto.
Qed.


Lemma failed_normalisation_invokes_again_witness :
  let legacy := VObj [] (Some (Raise TypeError, Raise TypeError)) (Ok []) in
  let w := {| has_client := true; start_span := None; enter_span := None;
              make_handler := None; invoke_traced := Ok legacy;
              update_trace := None; exit_plain := None;
              exit_error := Ok false; invoke_plain := Ok legacy;
              flush := None |} in
  filter is_invoke (fst (_invoke_with_tracing w)) = [Invoke true; Invoke false] /\
  snd (_invoke_with_tracing w) = Raised TypeError.
Proof.
  cbv zeta.
  apply (failed_normalisation_invokes_again
           {| has_client := true; start_span := None; enter_span := None;
              make_handler := None;
              invoke_traced := Ok (VObj [] (Some (Raise TypeError, Raise TypeError)) (Ok []));
              update_trace := None; exit_plain := None;
              exit_error := Ok false;
              invoke_plain := Ok (VObj [] (Some (Raise TypeError, Raise TypeError)) (Ok []));
              flush := None |}
           (VObj [] (Some (Raise TypeError, Raise TypeError)) (Ok []))
           TypeError); reflexivity.
Defined.

Lemma returned_is_normalized_witness :
  let w := {| has_client := true; start_span := Some RuntimeError;
              enter_span := None; make_handler := None;
              invoke_traced := Raise ValueError;
              update_trace := None; exit_plain := None;
              exit_error := Ok false; invoke_plain := Ok (VInt 7);
              flush := None |} in
  exists r,
    normalize_result r = Ok (lit "7") /\
    (if existsb (fun ev => match ev with Invoke false => true | _ => false end)
          (fst (_invoke_with_tracing w))
     then invoke_plain w = Ok r
     else invoke_traced w = Ok r).
Proof.
  cbv zeta. apply returned_is_normalized. reflexivity.
Defined.

Lemma raised_only_by_untraced_invocation_witness :
  let w := {| has_client := true; start_span := None;
              enter_span := None; make_handler := Some TypeError;
              invoke_traced := Ok VNone;
              update_trace := None; exit_plain := None;
              exit_error := Ok true; invoke_plain := Ok VNone;
              flush := None |} in
  _invoke_with_tracing w
  = ([Start_span; Enter_span; Make_handler; Exit_span true; Flush],
     Unbound_local) /\
  (has_client w = true /\ exit_error w = Ok true /\
   In (Exit_span true) (fst (_invoke_with_tracing w)) /\
   ~ In (Invoke false) (fst (_invoke_with_tracing w))).
Proof.
  cbv zeta. split; [reflexivity|].
  exact (raised_only_by_untraced_invocation
           {| has_client := true; start_span := None;
              enter_span := None; make_handler := Some TypeError;
              invoke_traced := Ok VNone;
              update_trace := None; exit_plain := None;
              exit_error := Ok true; invoke_plain := Ok VNone;
              flush := None |}).
Defined.

(** ** The lazily created Langfuse client *)

Lemma get_clients_initialized (envs : list surroundings) (t : tracing) :
  _langfuse_initialized t = true ->
  get_clients envs t = (t, 0, map (fun _ => _langfuse t) envs).
Proof.
  intros Ht. induction envs as [|env envs IH]; [reflexivity|].
  cbn [get_clients]. unfold _get_langfuse_client. rewrite Ht, IH. reflexivity.
Qed.

(** X30: on a fresh [LLMClient], however often [_get_langfuse_client] is
    called and however its surroundings change in between, [get_client] is
    called at most once and every call gives the client the first one
    gave. *)
Theorem langfuse_client_looked_up_once (env : surroundings)
  (envs : list surroundings) :
  let '(_, calls, clients) :=
    get_clients (env :: envs) {| _langfuse := None; _langfuse_initialized := false |} in
  calls <= 1 /\
  exists c, clients = c :: map (fun _ => c) envs.
Proof.
  cbn [get_clients]. unfold _get_langfuse_client. cbn [_langfuse_initialized _langfuse].
  destruct (tracing_disabled env); [|destruct (negb (langfuse_imported env));
    [|destruct (get_client env) as [[c|e]|]]];
    rewrite get_clients_initialized by reflexivity;
    cbn [_langfuse]; (split; [lia|eauto]).
Qed.

End ClientFacts.
